(** * BSL symbol indexing: parser, symbol cache and incremental indexer

    A shallow embedding of [solidlsp/bsl_parser.py], [solidlsp/bsl_cache.py]
    and the indexing entry points of
    [solidlsp/language_servers/bsl_language_server.py], followed by the
    properties of the specification that were checked against it.

    Python [str] values are sequences of Unicode code points and are
    modelled as [list N]; [dict]s whose iteration order is never observed
    are [gmap]s, the parser's [module_vars] dict (whose [values()] order is
    observed by the indexer) is an insertion-ordered association list. *)

From Stdlib Require Import String Ascii NArith ZArith.
From stdpp Require Import base numbers option list gmap sets pretty.

Set Default Proof Using "Type".

(** ** Python strings *)

Abbreviation str := (list N).

Module PyStr.

(** Decoding of the UTF-8 bytes of a Rocq string literal into code
    points, so that the Cyrillic literals of the sources can be written
    as they are. *)
Fixpoint utf8_decode (bs : list N) : str :=
  match bs with
  | [] => []
  | b0 :: r0 =>
    if (b0 <? 128)%N then b0 :: utf8_decode r0
    else
      match r0 with
      | [] => []
      | b1 :: r1 =>
        if (b0 <? 224)%N
        then ((b0 - 192) * 64 + (b1 - 128))%N :: utf8_decode r1
        else
          match r1 with
          | [] => []
          | b2 :: r2 =>
            if (b0 <? 240)%N
            then ((b0 - 224) * 4096 + (b1 - 128) * 64 + (b2 - 128))%N
                   :: utf8_decode r2
            else
              match r2 with
              | [] => []
              | b3 :: r3 =>
                ((b0 - 240) * 262144 + (b1 - 128) * 4096
                 + (b2 - 128) * 64 + (b3 - 128))%N :: utf8_decode r3
              end
          end
      end
  end.

Definition u (s : string) : str :=
  utf8_decode (N_of_ascii <$> list_ascii_of_string s).

Definition NL : N := 10%N.

(** [s.split(sep)] for a one-character separator: never empty. *)
Fixpoint split (sep : N) (s : str) : list str :=
  match s with
  | [] => [[]]
  | c :: r =>
    if (c =? sep)%N then [] :: split sep r
    else match split sep r with
         | p :: ps => (c :: p) :: ps
         | [] => [[c]]
         end
  end.

(** [sep.join(parts)] *)
Fixpoint join (sep : str) (parts : list str) : str :=
  match parts with
  | [] => []
  | [p] => p
  | p :: ps => p ++ sep ++ join sep ps
  end.

(** [s.replace(a, b)] for one-character [a] and [b]. *)
Definition replace_char (a b : N) (s : str) : str :=
  (λ c, if (c =? a)%N then b else c) <$> s.

(** [s.startswith(pre)] *)
Fixpoint startswith (pre s : str) : bool :=
  match pre, s with
  | [], _ => true
  | _ :: _, [] => false
  | a :: pre', b :: s' => (a =? b)%N && startswith pre' s'
  end.

(** [s.endswith(suf)] *)
Definition endswith (suf s : str) : bool :=
  startswith (rev suf) (rev s).

(** [s.find(sub)] on the suffix [s]; [None] is Python's [-1]. *)
Fixpoint find (sub s : str) : option nat :=
  if startswith sub s then Some 0
  else match s with
       | [] => None
       | _ :: r => S <$> find sub r
       end.

(** [s.find(sub, start)] *)
Definition find_from (sub s : str) (start : nat) : option nat :=
  if decide (start ≤ length s)
  then (λ i, start + i) <$> find sub (drop start s)
  else None.

(** [sub in s] *)
Definition contains (sub s : str) : bool :=
  bool_decide (is_Some (find sub s)).

(** [s[a:b]] for non-negative bounds. *)
Definition slice (a b : nat) (s : str) : str := take (b - a) (drop a s).

(** [s.count('\n')] *)
Definition count_char (c : N) (s : str) : nat :=
  length (filter (λ x, x = c) s).

(** Python's truth value of a string. *)
Definition truthy (s : str) : bool :=
  match s with [] => false | _ => true end.

End PyStr.
Import PyStr.

(** ** The Python runtime's tables

    The Unicode character database and the digest function are part of
    the Python runtime, not of the repository.  The embedding takes them
    as an interface; every universally quantified result below holds for
    any implementation of it. *)
Class PyRuntime := {
  (** [str.isspace] on one character; also [\s] of [re] *)
  isspace : N → bool;
  (** [str.isalnum] on one character; [\w] of [re] adds the underscore *)
  isalnum : N → bool;
  (** simple lower-case and upper-case mappings used by [re.IGNORECASE] *)
  tolower : N → N;
  toupper : N → N;
  (** [str.lower()] *)
  lower : str → str;
  (** [hashlib.md5(s.encode("utf-8")).hexdigest()] *)
  md5 : str → str;
}.

(** ** Data model ([bsl_parser.py], [bsl_cache.py]) *)

Record BSLParam := {
  p_name : str;
  p_byval : bool;
  p_default : option str;
}.

Record BSLCallPosition := {
  cp_call : str;
  cp_line : nat;
  cp_character : nat;
}.

Record BSLModuleVar := {
  v_name : str;
  v_is_export : bool;
  v_description : str;
}.

Record BSLMethod := {
  name : str;
  line : nat;
  endline : nat;
  isproc : bool;
  is_export : bool;
  params : list BSLParam;
  description : str;
  context : str;
  calls_position : list BSLCallPosition;
}.

Record BSLParseResult := {
  pr_methods : list BSLMethod;
  pr_global_calls : list BSLCallPosition;
  pr_module_vars : list (str * BSLModuleVar);
}.

Record BSLCallInfo := {
  ci_filename : str;
  ci_call : str;
  ci_line : nat;
  ci_character : nat;
  ci_method_name : str;
  ci_module : str;
}.

Record BSLModuleInfo := {
  mo_filename : str;
  mo_module : str;
  mo_type : str;
  mo_parenttype : str;
  mo_project : str;
}.

Record BSLMethodInfo := {
  method : BSLMethod;
  filename : str;
  module : str;
}.

(** ** The symbol cache ([bsl_cache.py]) *)

Record BSLCache := {
  methods : list BSLMethodInfo;
  module_vars : gmap str (list BSLModuleVar);
  calls : gmap str (list BSLCallInfo);
  modules : list BSLModuleInfo;
  _method_name_index : gmap str (list nat);
  _method_module_index : gmap str (list nat);
  _method_export_index : list nat;
}.

(** [BSLCache.__init__] *)
Definition BSLCache_init : BSLCache := {|
  methods := [];
  module_vars := ∅;
  calls := ∅;
  modules := [];
  _method_name_index := ∅;
  _method_module_index := ∅;
  _method_export_index := [];
|}.

(** The idiom [if k not in d: d[k] = []] followed by [d[k].append(x)]. *)
Definition dict_append {A} (k : str) (x : A) (d : gmap str (list A))
  : gmap str (list A) :=
  let d1 := if decide (is_Some (d !! k)) then d else <[k := []]> d in
  alter (λ l, l ++ [x]) k d1.

Section Cache.
Context `{PyRuntime}.

(** The index update for the entry stored at position [idx]; the same
    three statements close [add_method] and form the loop body of
    [_rebuild_indices]. *)
Definition index_method (idx : nat) (method_info : BSLMethodInfo)
    (ix : gmap str (list nat) * gmap str (list nat) * list nat)
  : gmap str (list nat) * gmap str (list nat) * list nat :=
  let '(name_index, module_index, export_index) := ix in
  (dict_append (lower (name (method method_info))) idx name_index,
   if truthy (module method_info)
   then dict_append (lower (module method_info)) idx module_index
   else module_index,
   if is_export (method method_info)
   then export_index ++ [idx] else export_index).

Definition add_method (c : BSLCache) (m : BSLMethod) (fname : str)
    (mod_ : str) : BSLCache :=
  let method_info := {| method := m; filename := fname; module := mod_ |} in
  let index := length (methods c) in
  let '(ni, mi, ei) :=
    index_method index method_info
      (_method_name_index c, _method_module_index c, _method_export_index c) in
  {| methods := methods c ++ [method_info];
     module_vars := module_vars c;
     calls := calls c;
     modules := modules c;
     _method_name_index := ni;
     _method_module_index := mi;
     _method_export_index := ei |}.

Definition add_module_var (c : BSLCache) (var : BSLModuleVar)
    (fname : str) : BSLCache :=
  {| methods := methods c;
     module_vars := dict_append fname var (module_vars c);
     calls := calls c;
     modules := modules c;
     _method_name_index := _method_name_index c;
     _method_module_index := _method_module_index c;
     _method_export_index := _method_export_index c |}.

Definition add_call (c : BSLCache) (cp : BSLCallPosition) (fname : str)
    (method_name : str) (mod_ : str) : BSLCache :=
  let call_name := cp_call cp in
  let call_info := {| ci_filename := fname; ci_call := call_name;
                      ci_line := cp_line cp;
                      ci_character := cp_character cp;
                      ci_method_name := method_name;
                      ci_module := mod_ |} in
  {| methods := methods c;
     module_vars := module_vars c;
     calls := dict_append call_name call_info (calls c);
     modules := modules c;
     _method_name_index := _method_name_index c;
     _method_module_index := _method_module_index c;
     _method_export_index := _method_export_index c |}.

(** The batch variants are [for] loops over the single operations. *)
Definition add_methods_batch (c : BSLCache)
    (methods_data : list (BSLMethod * str * str)) : BSLCache :=
  foldl (λ c '(m, fname, mod_), add_method c m fname mod_) c methods_data.

Definition add_module_vars_batch (c : BSLCache)
    (vars_data : list (BSLModuleVar * str)) : BSLCache :=
  foldl (λ c '(var, fname), add_module_var c var fname) c vars_data.

Definition add_calls_batch (c : BSLCache)
    (calls_data : list (BSLCallPosition * str * str * str)) : BSLCache :=
  foldl (λ c '(cp, fname, method_name, mod_),
           add_call c cp fname method_name mod_) c calls_data.

Definition add_module (c : BSLCache) (module_info : BSLModuleInfo)
  : BSLCache :=
  {| methods := methods c;
     module_vars := module_vars c;
     calls := calls c;
     modules := modules c ++ [module_info];
     _method_name_index := _method_name_index c;
     _method_module_index := _method_module_index c;
     _method_export_index := _method_export_index c |}.

Definition clear (c : BSLCache) : BSLCache := BSLCache_init.

(** [enumerate(l)] *)
Definition enumerate {A} (l : list A) : list (nat * A) :=
  imap (λ i x, (i, x)) l.

(** The three [clear()] calls and the loop of [_rebuild_indices]. *)
Definition rebuilt_indexes (ms : list BSLMethodInfo)
  : gmap str (list nat) * gmap str (list nat) * list nat :=
  foldl (λ ix '(idx, method_info), index_method idx method_info ix)
        (∅, ∅, []) (enumerate ms).

Definition _rebuild_indices (c : BSLCache) : BSLCache :=
  let '(ni, mi, ei) := rebuilt_indexes (methods c) in
  {| methods := methods c;
     module_vars := module_vars c;
     calls := calls c;
     modules := modules c;
     _method_name_index := ni;
     _method_module_index := mi;
     _method_export_index := ei |}.

(** First loop of [remove_file_data]: the positions owned by the file,
    collected from the end of the list. *)
Definition indices_to_remove (ms : list BSLMethodInfo) (fname : str)
  : list nat :=
  filter (λ idx, filename <$> ms !! idx = Some fname)
         (rev (seq 0 (length ms))).

(** Second loop: [self.methods.pop(idx)] for each collected position. *)
Definition pop_all (ms : list BSLMethodInfo) (idxs : list nat)
  : list BSLMethodInfo :=
  foldl (λ ms idx, delete idx ms) ms idxs.

(** Third part: the pass over [self.calls.items()] that rewrites the
    buckets in place and records the keys whose bucket became empty,
    and the loop that pops those keys. *)
Definition filter_calls_step (fname : str)
    (acc : gmap str (list BSLCallInfo) * list str)
    (item : str * list BSLCallInfo)
  : gmap str (list BSLCallInfo) * list str :=
  let '(cs, calls_to_remove) := acc in
  let '(call_name, call_list) := item in
  let filtered_calls := filter (λ ci, ci_filename ci ≠ fname) call_list in
  match filtered_calls with
  | [] => (cs, calls_to_remove ++ [call_name])
  | _ => (<[call_name := filtered_calls]> cs, calls_to_remove)
  end.

Definition filter_calls (cs : gmap str (list BSLCallInfo)) (fname : str)
  : gmap str (list BSLCallInfo) * list str :=
  foldl (filter_calls_step fname) (cs, []) (map_to_list cs).

Definition remove_calls (cs : gmap str (list BSLCallInfo)) (fname : str)
  : gmap str (list BSLCallInfo) :=
  let '(cs', calls_to_remove) := filter_calls cs fname in
  foldl (λ cs call_name, delete call_name cs) cs' calls_to_remove.

Definition remove_file_data (c : BSLCache) (fname : str) : BSLCache :=
  let ms := pop_all (methods c) (indices_to_remove (methods c) fname) in
  let c1 := _rebuild_indices
              {| methods := ms;
                 module_vars := module_vars c;
                 calls := calls c;
                 modules := modules c;
                 _method_name_index := _method_name_index c;
                 _method_module_index := _method_module_index c;
                 _method_export_index := _method_export_index c |} in
  {| methods := methods c1;
     module_vars := delete fname (module_vars c1);
     calls := remove_calls (calls c1) fname;
     modules := filter (λ mo, mo_filename mo ≠ fname) (modules c1);
     _method_name_index := _method_name_index c1;
     _method_module_index := _method_module_index c1;
     _method_export_index := _method_export_index c1 |}.

Record Stats := {
  st_methods : nat;
  st_exported_methods : nat;
  st_module_vars : nat;
  st_calls : nat;
  st_unique_calls : nat;
  st_modules : nat;
}.

Definition get_stats (c : BSLCache) : Stats := {|
  st_methods := length (methods c);
  st_exported_methods := length (_method_export_index c);
  st_module_vars :=
    map_fold (λ _ vars_list acc, length vars_list + acc) 0 (module_vars c);
  st_calls :=
    map_fold (λ _ calls_list acc, length calls_list + acc) 0 (calls c);
  st_unique_calls := size (calls c);
  st_modules := length (modules c);
|}.

Definition find_calls (c : BSLCache) (call_name : str) : list BSLCallInfo :=
  default [] (calls c !! call_name).

(** *** Queries

    The values a query dictionary holds.  [QRegex] is the dictionary
    [{'$regex': p}]: its argument is the predicate
    [re.compile(p, re.IGNORECASE).search], or [None] when compiling [p]
    raises. *)
Inductive qval :=
  | QStr (s : str)
  | QBool (b : bool)
  | QInt (z : Z)
  | QNone
  | QRegex (search : option (str → bool)).

(** [str(v)] *)
Definition py_str (v : qval) : str :=
  match v with
  | QStr s => s
  | QBool true => u "True"
  | QBool false => u "False"
  | QInt z => u (pretty z)
  | QNone => u "None"
  | QRegex _ => []
  end.

(** [bool(v)] *)
Definition py_truthy (v : qval) : bool :=
  match v with
  | QStr s => truthy s
  | QBool b => b
  | QInt z => negb (z =? 0)%Z
  | QNone => false
  | QRegex _ => true
  end.

(** [s == v] for a string [s], [b == v] for a boolean [b] *)
Definition eq_str (s : str) (v : qval) : bool :=
  match v with QStr t => bool_decide (s = t) | _ => false end.

Definition eq_bool (b : bool) (v : qval) : bool :=
  match v with
  | QBool b' => bool_decide (b = b')
  | QInt z => (z =? (if b then 1 else 0))%Z
  | _ => false
  end.

(** The positions selected by a [name] or [module] criterion; [None]
    when [re.compile] raises. *)
Definition index_filter (index : gmap str (list nat)) (v : qval)
  : option (gset nat) :=
  match v with
  | QRegex None => None
  | QRegex (Some search) =>
    Some (⋃ ((λ '(k, indices),
                if search k then list_to_set indices else ∅)
               <$> map_to_list index))
  | _ => Some (list_to_set (default [] (index !! lower (py_str v))))
  end.

(** [find_methods]; [None] stands for a raised exception.  The result
    follows the iteration order of a Python [set], which is not
    specified: only order-independent facts are stated about it. *)
(** The [name] filter, then the [module] filter, then the export
    filter of [find_methods], each refining [candidate_indices]
    ([None] is Python's [None]: no index filter applied so far). *)
Definition filter_by_index (index : gmap str (list nat))
    (criterion : option qval) (candidate_indices : option (gset nat))
  : option (option (gset nat)) :=
  match criterion with
  | None => Some candidate_indices
  | Some v =>
    indices ← index_filter index v;
    Some (Some (match candidate_indices with
                | Some s => s ∩ indices
                | None => indices
                end))
  end.

Definition filter_by_export (c : BSLCache) (q : gmap str qval)
    (candidate_indices : option (gset nat)) : option (gset nat) :=
  if bool_decide (is_Some (q !! u "is_export"))
     || bool_decide (is_Some (q !! u "isExport"))
  then
    let is_export :=
      py_truthy (default (default (QBool false) (q !! u "isExport"))
                         (q !! u "is_export")) in
    let export_indices : gset nat :=
      list_to_set (_method_export_index c) in
    Some (match candidate_indices with
          | Some s =>
            if is_export then s ∩ export_indices
            else s ∖ export_indices
          | None =>
            if is_export then export_indices
            else set_seq 0 (length (methods c)) ∖ export_indices
          end)
  else candidate_indices.

(** The checks of the final loop that look at the method itself. *)
Definition passes (q : gmap str qval) (method_info : BSLMethodInfo)
  : bool :=
  match q !! u "context" with
  | Some v => eq_str (context (method method_info)) v
  | None => true
  end
  && match q !! u "isproc" with
     | Some v => eq_bool (isproc (method method_info)) v
     | None => true
     end.

Definition collect (c : BSLCache) (q : gmap str qval)
    (candidate_indices : gset nat) : list BSLMethodInfo :=
  omap (λ idx : nat,
          match methods c !! idx with
          | Some method_info =>
            if passes q method_info then Some method_info else None
          | None => None
          end)
       (elements candidate_indices).

(** [find_methods]; [None] stands for a raised exception.  The result
    follows the iteration order of a Python [set], which is not
    specified: only order-independent facts are stated about it. *)
Definition find_methods (c : BSLCache) (query : option (gmap str qval))
  : option (list BSLMethodInfo) :=
  match query with
  | None => Some (methods c)
  | Some q =>
    if decide (size q = 0) then Some (methods c) else
    match filter_by_index (_method_name_index c) (q !! u "name") None with
    | None => None
    | Some cand1 =>
      match filter_by_index (_method_module_index c)
                            (q !! u "module") cand1 with
      | None => None
      | Some cand2 =>
        let candidate_indices : gset nat :=
          default (set_seq 0 (length (methods c)))
                  (filter_by_export c q cand2) in
        Some (collect c q candidate_indices)
      end
    end
  end.

Definition find_methods_by_module (c : BSLCache) (mod_ : str)
  : option (list BSLMethodInfo) :=
  find_methods c (Some {[ u "module" := QStr mod_ ]}).

Definition find_exported_methods (c : BSLCache) (mod_ : option str)
  : option (list BSLMethodInfo) :=
  let query : gmap str qval := {[ u "is_export" := QBool true ]} in
  find_methods c
    (Some (match mod_ with
           | Some m => if truthy m then <[ u "module" := QStr m ]> query
                       else query
           | None => query
           end)).

(** *** Sequences of mutating operations *)
Inductive op :=
  | AddMethod (m : BSLMethod) (fname mod_ : str)
  | AddModuleVar (var : BSLModuleVar) (fname : str)
  | AddCall (cp : BSLCallPosition) (fname method_name mod_ : str)
  | AddMethodsBatch (methods_data : list (BSLMethod * str * str))
  | AddModuleVarsBatch (vars_data : list (BSLModuleVar * str))
  | AddCallsBatch (calls_data : list (BSLCallPosition * str * str * str))
  | AddModule (module_info : BSLModuleInfo)
  | RemoveFileData (fname : str)
  | Clear.

Definition apply_op (c : BSLCache) (o : op) : BSLCache :=
  match o with
  | AddMethod m fname mod_ => add_method c m fname mod_
  | AddModuleVar var fname => add_module_var c var fname
  | AddCall cp fname method_name mod_ => add_call c cp fname method_name mod_
  | AddMethodsBatch l => add_methods_batch c l
  | AddModuleVarsBatch l => add_module_vars_batch c l
  | AddCallsBatch l => add_calls_batch c l
  | AddModule module_info => add_module c module_info
  | RemoveFileData fname => remove_file_data c fname
  | Clear => clear c
  end.

Definition run (ops : list op) (c : BSLCache) : BSLCache :=
  foldl apply_op c ops.

(** *** Consistency of the secondary indexes *)

(** The positions of [l], in increasing order, that hold an element
    satisfying [P]. *)
Fixpoint positions_from {A} (P : A → bool) (i : nat) (l : list A)
  : list nat :=
  match l with
  | [] => []
  | x :: r =>
    if P x then i :: positions_from P (S i) r
    else positions_from P (S i) r
  end.

Definition positions {A} (P : A → bool) (l : list A) : list nat :=
  positions_from P 0 l.

(** A key is present in an index exactly when its position list is not
    empty. *)
Definition nonempty {A} (l : list A) : option (list A) :=
  match l with [] => None | _ => Some l end.

Definition has_name (k : str) (e : BSLMethodInfo) : bool :=
  bool_decide (lower (name (method e)) = k).

Definition has_module (k : str) (e : BSLMethodInfo) : bool :=
  truthy (module e) && bool_decide (lower (module e) = k).

Definition exported (e : BSLMethodInfo) : bool := is_export (method e).

Definition indexes_for (ms : list BSLMethodInfo)
    (ix : gmap str (list nat) * gmap str (list nat) * list nat) : Prop :=
  (∀ k, ix.1.1 !! k = nonempty (positions (has_name k) ms))
  ∧ (∀ k, ix.1.2 !! k = nonempty (positions (has_module k) ms))
  ∧ ix.2 = positions exported ms.

Definition consistent (c : BSLCache) : Prop :=
  indexes_for (methods c)
    (_method_name_index c, _method_module_index c, _method_export_index c).

(** A list of positions in decreasing order, all below [b]: the shape
    of [indices_to_remove]. *)
Fixpoint desc_below (b : nat) (idxs : list nat) : Prop :=
  match idxs with
  | [] => True
  | i :: r => i < b ∧ desc_below i r
  end.

(** The call records of a bucket that belong to other files. *)
Definition keep (fname : str) (l : list BSLCallInfo) : list BSLCallInfo :=
  filter (λ ci, ci_filename ci ≠ fname) l.

(** No callee bucket is empty: [add_call] appends right after creating
    a bucket and [remove_file_data] drops the emptied ones. *)
Definition no_empty_bucket (c : BSLCache) : Prop :=
  ∀ k l, calls c !! k = Some l → l ≠ [].

(** The file owns nothing in the cache. *)
Definition unknown_file (c : BSLCache) (fname : str) : Prop :=
  (∀ e, e ∈ methods c → filename e ≠ fname)
  ∧ module_vars c !! fname = None
  ∧ (∀ k l ci, calls c !! k = Some l → ci ∈ l → ci_filename ci ≠ fname)
  ∧ (∀ mo, mo ∈ modules c → mo_filename mo ≠ fname).

End Cache.

(** ** Regular expressions ([re])

    A backtracking matcher with the semantics of Python's [re] for the
    constructs the parser's patterns use: leftmost match, greedy
    repetition of a character class, ordered alternation, optional
    groups, [^] under [re.MULTILINE], [\b], and literals under
    [re.IGNORECASE]. *)
Section Re.
Context `{PyRuntime}.

Inductive regex :=
  | Eps
  | Bol
  | WordB
  | Lit (s : str)
  | Star (cls : N → bool)
  | Plus (cls : N → bool)
  | Seq (r1 r2 : regex)
  | Alt (r1 r2 : regex)
  | Opt (r : regex)
  | Group (n : nat) (r : regex).

Record mstate := {
  pos : nat;
  groups : list (nat * (nat * nat));
}.

Record rmatch := {
  m_start : nat;
  m_end : nat;
  m_groups : list (nat * (nat * nat));
}.

(** [\w] *)
Definition is_word (c : N) : bool := isalnum c || (c =? 95)%N.

(** A pattern literal [l] against the text character [c] under
    [re.IGNORECASE]: cased literals are compared through the simple
    lower-case mapping. *)
Definition iscased (c : N) : bool :=
  negb (c =? tolower c)%N || negb (c =? toupper c)%N.

Definition ilit (l c : N) : bool :=
  if iscased l then (tolower c =? tolower l)%N else (c =? l)%N.

Fixpoint ilit_prefix (lit s : str) : bool :=
  match lit, s with
  | [], _ => true
  | _ :: _, [] => false
  | l :: lit', c :: s' => ilit l c && ilit_prefix lit' s'
  end.

Definition at_bol (text : str) (p : nat) : bool :=
  match p with
  | 0 => true
  | S p' => bool_decide (text !! p' = Some NL)
  end.

Definition word_at (text : str) (p : nat) : bool :=
  match text !! p with Some c => is_word c | None => false end.

Definition at_wordb (text : str) (p : nat) : bool :=
  negb (Bool.eqb (match p with 0 => false | S p' => word_at text p' end)
                 (word_at text p)).

Fixpoint count_while (cls : N → bool) (s : str) : nat :=
  match s with
  | c :: r => if cls c then S (count_while cls r) else 0
  | [] => 0
  end.

Definition advance (st : mstate) (n : nat) : mstate :=
  {| pos := pos st + n; groups := groups st |}.

(** Greedy repetition: [lo + n] characters first, then one fewer, down
    to [lo]. *)
Fixpoint try_down (st : mstate) (k : mstate → option mstate)
    (lo n : nat) : option mstate :=
  match k (advance st (lo + n)) with
  | Some r => Some r
  | None => match n with
            | 0 => None
            | S n' => try_down st k lo n'
            end
  end.

Fixpoint rx (text : str) (r : regex) (st : mstate)
    (k : mstate → option mstate) : option mstate :=
  match r with
  | Eps => k st
  | Bol => if at_bol text (pos st) then k st else None
  | WordB => if at_wordb text (pos st) then k st else None
  | Lit s =>
    if ilit_prefix s (drop (pos st) text)
    then k (advance st (length s)) else None
  | Star cls =>
    try_down st k 0 (count_while cls (drop (pos st) text))
  | Plus cls =>
    match count_while cls (drop (pos st) text) with
    | 0 => None
    | S n => try_down st k 1 n
    end
  | Seq r1 r2 => rx text r1 st (λ st', rx text r2 st' k)
  | Alt r1 r2 =>
    match rx text r1 st k with
    | Some res => Some res
    | None => rx text r2 st k
    end
  | Opt r1 =>
    match rx text r1 st k with
    | Some res => Some res
    | None => k st
    end
  | Group n r1 =>
    rx text r1 st
       (λ st', k {| pos := pos st';
                    groups := (n, (pos st, pos st')) :: groups st' |})
  end.

Definition match_at (text : str) (r : regex) (p : nat) : option rmatch :=
  (λ st, {| m_start := p; m_end := pos st; m_groups := groups st |})
    <$> rx text r {| pos := p; groups := [] |} Some.

(** The first position from [p] on, at most [fuel] positions further,
    where the pattern matches. *)
Fixpoint search_from (text : str) (r : regex) (fuel p : nat)
  : option rmatch :=
  match match_at text r p with
  | Some mt => Some mt
  | None => match fuel with
            | 0 => None
            | S f => search_from text r f (S p)
            end
  end.

(** [pattern.search(text)] *)
Definition search (r : regex) (text : str) : option rmatch :=
  search_from text r (length text) 0.

(** [pattern.finditer(text)].  Every pattern of the parser consumes at
    least one character, so each round starts at the end of the
    previous match. *)
Fixpoint finditer_from (text : str) (r : regex) (fuel p : nat)
  : list rmatch :=
  match fuel with
  | 0 => []
  | S f =>
    if decide (p ≤ length text) then
      match search_from text r (length text - p) p with
      | None => []
      | Some mt =>
        mt :: finditer_from text r f
                (if decide (m_start mt < m_end mt) then m_end mt
                 else S (m_end mt))
      end
    else []
  end.

Definition finditer (r : regex) (text : str) : list rmatch :=
  finditer_from text r (S (length text)) 0.

(** [match.group(0)] and [match.group(n)] *)
Definition group0 (text : str) (mt : rmatch) : str :=
  slice (m_start mt) (m_end mt) text.

Fixpoint assoc {A} (n : nat) (l : list (nat * A)) : option A :=
  match l with
  | [] => None
  | (k, v) :: r => if decide (k = n) then Some v else assoc n r
  end.

Definition group (n : nat) (text : str) (mt : rmatch) : option str :=
  (λ '(a, b), slice a b text) <$> assoc n (m_groups mt).

End Re.

(** ** The parser ([bsl_parser.py]) *)
Section Parser.
Context `{PyRuntime}.

Definition seqs (rs : list regex) : regex := foldr Seq Eps rs.

(** The class [[а-яёА-ЯЁ\w]] under [re.IGNORECASE]: the text character
    is lower-cased and looked up in the lower-cased ranges or in [\w]. *)
Definition name_class_ranges : list N :=
  (N.of_nat <$> seq 1072 32) ++ [1105%N]
  ++ (N.of_nat <$> seq 1040 32) ++ [1025%N].

Definition name_char (ch : N) : bool :=
  let c := tolower ch in
  existsb (λ x, (tolower x =? c)%N) name_class_ranges || is_word c.

Definition context_prefix : regex :=
  Alt (Lit (u "&НаСервере"))
      (Alt (Lit (u "&НаКлиенте")) (Lit (u "&НаСервереБезКонтекста"))).

Definition decl_pattern (keyword : str) : regex :=
  seqs [Bol; Star isspace; Opt context_prefix; Star isspace;
        Opt (Seq (Lit (u "Экспорт")) (Plus isspace));
        Lit keyword; Plus isspace; Group 1 (Plus name_char);
        Star isspace; Lit (u "(")].

Definition PROC_PATTERN : regex := decl_pattern (u "Процедура").
Definition FUNC_PATTERN : regex := decl_pattern (u "Функция").

Definition PROC_END_PATTERN : regex :=
  seqs [Bol; Star isspace; Lit (u "КонецПроцедуры")].
Definition FUNC_END_PATTERN : regex :=
  seqs [Bol; Star isspace; Lit (u "КонецФункции")].

Definition CONTEXT_PATTERN : regex :=
  Seq (Lit (u "&"))
      (Group 1 (Alt (Lit (u "НаСервере"))
                    (Alt (Lit (u "НаКлиенте"))
                         (Lit (u "НаСервереБезКонтекста"))))).

Definition EXPORT_PATTERN : regex :=
  seqs [WordB; Lit (u "Экспорт"); WordB].

Definition PARAM_PATTERN : regex :=
  seqs [Opt (Seq (Lit (u "Знач")) (Plus isspace));
        Group 1 (Plus name_char);
        Opt (seqs [Star isspace; Lit (u "="); Star isspace;
                   Group 2 (Plus (λ c, negb (c =? 44)%N
                                       && negb (c =? 41)%N))])].

Definition MODULE_VAR_PATTERN : regex :=
  seqs [Bol; Star isspace; Lit (u "Перем"); Plus isspace;
        Group 1 (Plus name_char);
        Opt (Seq (Plus isspace) (Lit (u "Экспорт")));
        Star isspace; Lit (u ";")].

Definition CALL_PATTERN : regex :=
  seqs [WordB; Group 1 (Plus name_char); Star isspace; Lit (u "(")].

Definition KEYWORDS : list str :=
  u <$> ["если"; "иначе"; "иначеесли"; "конецесли"; "пока"; "конеццикла";
         "для"; "каждого"; "из"; "цикл"; "процедура"; "функция";
         "конецпроцедуры"; "конецфункции"; "возврат"; "прервать";
         "продолжить"; "попытка"; "исключение"; "вызватьисключение";
         "новый"; "тип"; "типзнч"; "неопределено"; "истина"; "ложь";
         "сообщить"; "сообщениепользователю"; "пустаястрока"; "стршаблон";
         "насервере"; "наклиенте"; "насерверебезконтекста"; "экспорт";
         "знач"; "перем"; "конецобласти"; "область"]%string.

Definition is_keyword (call_name : str) : bool :=
  bool_decide (lower call_name ∈ KEYWORDS).

(** [s.lstrip()], [s.strip()] *)
Definition lstrip (s : str) : str := drop (count_while isspace s) s.
Definition strip (s : str) : str := rev (lstrip (rev (lstrip s))).

(** The loop of [_extract_description_before] over the lines
    [lines[max(0, line_num - 20) : line_num]]; leaving the recursion
    is the [break]. *)
Fixpoint collect_description (ls : list str) (description_lines : list str)
  : list str :=
  match ls with
  | [] => description_lines
  | l :: rest =>
    let line := strip l in
    if (if description_lines is [] then true else false)
       && negb (truthy line)
    then collect_description rest description_lines
    else if startswith (u "//") line
    then collect_description rest
           (description_lines ++ [strip (drop 2 line)])
    else if contains (u "/*") line
    then
      if contains (u "*/") line
      then
        let comment :=
          strip (slice (default 0 (find (u "/*") line) + 2)
                       (default 0 (find (u "*/") line)) line) in
        if truthy comment
        then collect_description rest (description_lines ++ [comment])
        else collect_description rest description_lines
      else collect_description rest description_lines
    else if truthy line then description_lines
    else collect_description rest description_lines
  end.

Definition _extract_description_before (lines : list str) (line_num : nat)
  : str :=
  let description_lines :=
    collect_description
      (take (line_num - (line_num - 20)) (drop (line_num - 20) lines)) [] in
  strip (join [NL] (rev description_lines)).

Definition _extract_context (line : str) : str :=
  match search CONTEXT_PATTERN line with
  | Some mt =>
    let context := default [] (group 1 line mt) in
    if bool_decide (lower context = u "насервере") then u "НаСервере"
    else if bool_decide (lower context = u "наклиенте") then u "НаКлиенте"
    else if bool_decide (lower context = u "насерверебезконтекста")
    then u "НаСервереБезКонтекста"
    else []
  | None => []
  end.

Definition parse_params (params_text : str) : list BSLParam :=
  if truthy (strip params_text) then
    (λ param_match,
       let g0 := group0 params_text param_match in
       {| p_name := default [] (group 1 params_text param_match);
          p_byval := contains (u "Знач") g0 || contains (u "знач") g0;
          p_default :=
            match group 2 params_text param_match with
            | Some d => if truthy d then Some (strip d) else None
            | None => None
            end |})
      <$> finditer PARAM_PATTERN params_text
  else [].

Definition _extract_params (source : str) (start_pos : nat)
    (lines : list str) (start_line : nat) : list BSLParam :=
  let declaration_line := default [] (lines !! start_line) in
  match find (u "(") declaration_line with
  | None => []
  | Some paren_start =>
    match find_from (u ")") declaration_line (paren_start + 1) with
    | None =>
      let search_start := start_pos + paren_start + 1 in
      match find_from (u ")") source search_start with
      | None => []
      | Some paren_end_pos =>
        parse_params (slice search_start paren_end_pos source)
      end
    | Some paren_end =>
      parse_params (slice (paren_start + 1) paren_end declaration_line)
    end
  end.

(** The loop of [_find_method_end] over the lines after the
    declaration; [i] is the index of the head of [ls]. *)
Fixpoint find_end_loop (end_pattern : regex) (ls : list str) (i : nat)
    (depth : Z) : option nat :=
  match ls with
  | [] => None
  | line :: rest =>
    let proc_match := search PROC_PATTERN line in
    let func_match := search FUNC_PATTERN line in
    match (match proc_match with Some mt => Some mt | None => func_match end)
    with
    | Some mt =>
      let match_pos := m_start mt in
      if decide (match_pos = length line - length (lstrip line))
      then find_end_loop end_pattern rest (S i) (depth + 1)
      else find_end_loop end_pattern rest (S i) depth
    | None =>
      match search end_pattern line with
      | Some _ =>
        if decide (depth - 1 = 0)%Z then Some i
        else find_end_loop end_pattern rest (S i) (depth - 1)
      | None => find_end_loop end_pattern rest (S i) depth
      end
    end
  end.

Definition _find_method_end (source : str) (start_line : nat)
    (is_proc : bool) : option nat :=
  let lines := split NL source in
  let end_pattern := if is_proc then PROC_END_PATTERN
                     else FUNC_END_PATTERN in
  find_end_loop end_pattern (drop (start_line + 1) lines)
                (start_line + 1) 1.

(** The re-synchronisation loop [for offset in range(3)]. *)
Definition resolve_start_line (lines : list str) (method_name : str)
    (start_line : nat) : nat :=
  let found (offset : nat) : bool :=
    match lines !! (start_line + offset) with
    | Some line_text =>
      contains method_name line_text
      && (contains (u "Процедура") line_text
          || contains (u "Функция") line_text)
      && contains method_name line_text
    | None => false
    end in
  if found 0 then start_line
  else if found 1 then start_line + 1
  else if found 2 then start_line + 2
  else start_line.

Definition _parse_method_from_match (source : str) (lines : list str)
    (mt : rmatch) (is_proc : bool) : option BSLMethod :=
  let method_name := default [] (group 1 source mt) in
  let start_pos := m_start mt in
  let start_line :=
    resolve_start_line lines method_name
      (count_char NL (take start_pos source)) in
  let declaration_line := default [] (lines !! start_line) in
  let context := _extract_context declaration_line in
  let is_export :=
    bool_decide (is_Some (search EXPORT_PATTERN declaration_line)) in
  let params := _extract_params source start_pos lines start_line in
  match _find_method_end source start_line is_proc with
  | None => None
  | Some end_line =>
    Some {| name := method_name;
            line := start_line;
            endline := end_line;
            isproc := is_proc;
            is_export := is_export;
            params := params;
            description := _extract_description_before lines start_line;
            context := context;
            calls_position := [] |}
  end.

(** [methods.sort(key=lambda m: m.line)]: a stable sort. *)
Fixpoint insert_by_line (m : BSLMethod) (sorted : list BSLMethod)
  : list BSLMethod :=
  match sorted with
  | [] => [m]
  | m' :: rest =>
    if decide (line m ≤ line m') then m :: m' :: rest
    else m' :: insert_by_line m rest
  end.

Definition sort_by_line (ms : list BSLMethod) : list BSLMethod :=
  foldr insert_by_line [] ms.

Definition _parse_methods (source : str) (lines : list str)
  : list BSLMethod :=
  let procs :=
    omap (λ mt, _parse_method_from_match source lines mt true)
         (finditer PROC_PATTERN source) in
  let funcs :=
    omap (λ mt, _parse_method_from_match source lines mt false)
         (finditer FUNC_PATTERN source) in
  sort_by_line (procs ++ funcs).

(** The calls found on one line; [skip] is the name of the enclosing
    method for [_parse_method_calls] and absent for the module level. *)
Definition line_calls (skip : option str) (line_num : nat) (line_text : str)
  : list BSLCallPosition :=
  omap (λ mt,
          let call_name := default [] (group 1 line_text mt) in
          if is_keyword call_name then None
          else if bool_decide (skip = Some call_name) then None
          else Some {| cp_call := call_name;
                       cp_line := line_num;
                       cp_character := m_start mt |})
       (finditer CALL_PATTERN line_text).

Definition method_ranges (methods : list BSLMethod) : gset nat :=
  ⋃ ((λ m, list_to_set (seq (line m) (endline m + 1 - line m)))
       <$> methods).

Definition _parse_global_calls (source : str) (lines : list str)
    (methods : list BSLMethod) : list BSLCallPosition :=
  let ranges := method_ranges methods in
  concat (imap (λ line_num line_text,
                  if decide (line_num ∈ ranges) then []
                  else line_calls None line_num line_text) lines).

Definition _parse_method_calls (source : str) (lines : list str)
    (m : BSLMethod) : list BSLCallPosition :=
  let method_lines :=
    take (endline m + 1 - line m) (drop (line m) lines) in
  concat (imap (λ line_offset line_text,
                  line_calls (Some (name m)) (line m + line_offset)
                             line_text) method_lines).

(** [vars_dict[var_name] = ...] on an insertion-ordered dict. *)
Fixpoint dict_set {V} (k : str) (v : V) (d : list (str * V))
  : list (str * V) :=
  match d with
  | [] => [(k, v)]
  | (k', v') :: rest =>
    if decide (k' = k) then (k, v) :: rest
    else (k', v') :: dict_set k v rest
  end.

(** The [BSLModuleVar] built for one match of [MODULE_VAR_PATTERN]. *)
Definition module_var_of_match (source : str) (lines : list str)
    (mt : rmatch) : BSLModuleVar :=
  let var_name := default [] (group 1 source mt) in
  let var_line := count_char NL (take (m_start mt) source) in
  let var_text := group0 source mt in
  let is_export :=
    contains (u "Экспорт") var_text || contains (u "экспорт") var_text in
  {| v_name := var_name;
     v_is_export := is_export;
     v_description := _extract_description_before lines var_line |}.

Definition _parse_module_vars (source : str) (lines : list str)
  : list (str * BSLModuleVar) :=
  foldl (λ vars_dict mt,
           let var := module_var_of_match source lines mt in
           dict_set (v_name var) var vars_dict)
        [] (finditer MODULE_VAR_PATTERN source).

Definition with_calls (m : BSLMethod) (cs : list BSLCallPosition)
  : BSLMethod :=
  {| name := name m; line := line m; endline := endline m;
     isproc := isproc m; is_export := is_export m; params := params m;
     description := description m; context := context m;
     calls_position := cs |}.

Definition parse (source : str) : BSLParseResult :=
  let lines := split NL source in
  let module_vars := _parse_module_vars source lines in
  let methods := _parse_methods source lines in
  let global_calls := _parse_global_calls source lines methods in
  {| pr_methods :=
       (λ m, with_calls m (_parse_method_calls source lines m)) <$> methods;
     pr_global_calls := global_calls;
     pr_module_vars := module_vars |}.

End Parser.

(** ** The indexer ([bsl_language_server.py]) *)

(** One entry of a [DocumentSymbols] projection.  The [uri] of the
    location is a function of [sy_abs_path] and is left out. *)
Record Symbol := {
  sy_name : str;
  sy_kind : nat;
  sy_start_line : nat;
  sy_start_char : nat;
  sy_end_line : nat;
  sy_end_char : nat;
  sy_abs_path : str;
  sy_rel_path : str;
  sy_body : str;
  sy_detail : option str;
  sy_description : option str;
}.

(** The fields of [BSLLanguageServer] that indexing reads and writes.
    [_local_cache] is assigned a [BSLCache] in [__init__] and never
    [None]; the [_is_modified] flags are write-only here. *)
Record Server := {
  repository_root_path : str;
  _local_cache : BSLCache;
  _document_symbols_cache : gmap str (str * list Symbol);
  _raw_document_symbols_cache : gmap str str;
  _file_content_cache : gmap str str;
  _converted_files : gset str;
}.

Definition Server_init (root : str) : Server := {|
  repository_root_path := root;
  _local_cache := BSLCache_init;
  _document_symbols_cache := ∅;
  _raw_document_symbols_cache := ∅;
  _file_content_cache := ∅;
  _converted_files := ∅;
|}.

Section Indexer.
Context `{PyRuntime}.

Definition SLASH : N := 47%N.
Definition BACKSLASH : N := 92%N.

Definition type_mapping : list (str * str) :=
  [(u "Documents", u "Документы");
   (u "Catalogs", u "Справочники");
   (u "InformationRegisters", u "РегистрыСведений");
   (u "AccumulationRegisters", u "РегистрыНакопления");
   (u "Enums", u "Перечисления");
   (u "Constants", u "Константы");
   (u "CommonCommands", u "ОбщиеКоманды");
   (u "WebServices", u "ВебСервисы");
   (u "BusinessProcesses", u "БизнесПроцессы");
   (u "Tasks", u "Задачи")].

(** [type_mapping.get(parent_type, parent_type)] *)
Fixpoint mapping_get (k : str) (table : list (str * str)) (dflt : str)
  : str :=
  match table with
  | [] => dflt
  | (k', v) :: rest => if decide (k' = k) then v else mapping_get k rest dflt
  end.

Definition is_common_modules (parent_type : str) : bool :=
  startswith (u "CommonModules") parent_type
  || startswith (u "ОбщиеМодули") parent_type.

(** No statement of the [try] block can raise, so the [except] branch
    is never taken. *)
Definition _get_module_for_path (fullpath root_path : str) : str :=
  let rel_path :=
    if endswith [BACKSLASH] root_path || endswith [SLASH] root_path
    then drop (length root_path) fullpath
    else drop (length root_path + 1) fullpath in
  let parts := split SLASH (replace_char BACKSLASH SLASH rel_path) in
  let hierarchy := length parts in
  if decide (3 < hierarchy) then
    let parent_type := default [] (parts !! (hierarchy - 4)) in
    if is_common_modules parent_type
    then default [] (parts !! (hierarchy - 3))
    else mapping_get parent_type type_mapping parent_type
         ++ u "." ++ default [] (parts !! (hierarchy - 3))
  else [].

(** [os.path.join(root, rel)] with [/] as separator *)
Definition path_join (root rel : str) : str :=
  if startswith [SLASH] rel then rel
  else if negb (truthy root) || endswith [SLASH] root then root ++ rel
  else root ++ [SLASH] ++ rel.

(** [source.replace("\r\n", "\n").replace("\r", "\n")] *)
Fixpoint replace_crlf (s : str) : str :=
  match s with
  | [] => []
  | c :: r =>
    match r with
    | d :: r' =>
      if ((c =? 13) && (d =? 10))%N then NL :: replace_crlf r'
      else c :: replace_crlf r
    | [] => [c]
    end
  end.

Definition normalize_newlines (s : str) : str :=
  replace_char 13 NL (replace_crlf s).

(** [min(m.endline, len(lines) - 1) if m.endline < len(lines) else
    len(lines) - 1] *)
Definition clamp_end (m : BSLMethod) (lines : list str) : nat :=
  if decide (endline m < length lines)
  then endline m `min` (length lines - 1)
  else length lines - 1.

Definition _extract_method_body (file_content : str) (m : BSLMethod)
  : str :=
  let lines := split NL file_content in
  let start_line := line m in
  let end_line := clamp_end m lines in
  if decide (end_line < start_line ∨ length lines ≤ start_line) then []
  else join [NL] (take (end_line + 1 - start_line) (drop start_line lines)).

Definition symbol_of_method (relative_file_path abs_path file_content : str)
    (m : BSLMethod) : Symbol :=
  let lines := split NL file_content in
  let end_line := clamp_end m lines in
  let start_char :=
    match lines !! line m with
    | Some method_line => default 0 (find (name m) method_line)
    | None => 0
    end in
  let detail_parts :=
    (if truthy (context m) then [context m] else [])
    ++ (if is_export m then [u "Экспорт"] else []) in
  {| sy_name := name m;
     sy_kind := if isproc m then 6 else 12;
     sy_start_line := line m;
     sy_start_char := start_char;
     sy_end_line := end_line;
     sy_end_char := length (default [] (lines !! end_line));
     sy_abs_path := abs_path;
     sy_rel_path := relative_file_path;
     sy_body := _extract_method_body file_content m;
     sy_detail := if detail_parts is [] then None
                  else Some (join (u " | ") detail_parts);
     sy_description := if truthy (description m)
                       then Some (description m) else None |}.

Definition _convert_single_file_to_document_symbols (sv : Server)
    (relative_file_path abs_path file_content file_hash : str)
    (ms : list BSLMethod) (mod_ : str) : Server :=
  let document_symbols :=
    symbol_of_method relative_file_path abs_path file_content <$> ms in
  {| repository_root_path := repository_root_path sv;
     _local_cache := _local_cache sv;
     _document_symbols_cache :=
       <[relative_file_path := (file_hash, document_symbols)]>
         (_document_symbols_cache sv);
     _raw_document_symbols_cache :=
       <[relative_file_path := file_hash]> (_raw_document_symbols_cache sv);
     _file_content_cache := _file_content_cache sv;
     _converted_files := _converted_files sv |}.

Definition set_local_cache (sv : Server) (c : BSLCache) : Server :=
  {| repository_root_path := repository_root_path sv;
     _local_cache := c;
     _document_symbols_cache := _document_symbols_cache sv;
     _raw_document_symbols_cache := _raw_document_symbols_cache sv;
     _file_content_cache := _file_content_cache sv;
     _converted_files := _converted_files sv |}.

(** The cache insertions of [_parse_file_local] for one parse result. *)
Definition insert_parse_result (c : BSLCache) (relative_file_path : str)
    (mod_ : str) (parse_result : BSLParseResult) : BSLCache :=
  let c1 :=
    if pr_methods parse_result is [] then c
    else add_methods_batch c
           ((λ m, (m, relative_file_path, mod_))
              <$> pr_methods parse_result) in
  let c2 :=
    if pr_module_vars parse_result is [] then c1
    else add_module_vars_batch c1
           ((λ kv, (kv.2, relative_file_path))
              <$> pr_module_vars parse_result) in
  let c3 :=
    if pr_global_calls parse_result is [] then c2
    else add_calls_batch c2
           ((λ cp, (cp, relative_file_path, u "GlobalModuleText", mod_))
              <$> pr_global_calls parse_result) in
  let method_calls :=
    concat ((λ m, (λ cp, (cp, relative_file_path, name m, mod_))
                    <$> calls_position m)
              <$> pr_methods parse_result) in
  if method_calls is [] then c3 else add_calls_batch c3 method_calls.

(** [_parse_file_local]; [fs] gives the decoded text of the file at an
    absolute path, [None] when the file does not exist. *)
Definition _parse_file_local (fs : str → option str) (sv : Server)
    (relative_file_path : str) : Server :=
  let abs_path := path_join (repository_root_path sv) relative_file_path in
  match fs abs_path with
  | None => sv
  | Some text =>
    let source := normalize_newlines text in
    let file_hash := md5 source in
    if bool_decide (fst <$> _document_symbols_cache sv !! relative_file_path
                    = Some file_hash)
    then sv
    else if negb (truthy (strip source)) then sv
    else
      let parse_result := parse source in
      let mod_ := _get_module_for_path abs_path (repository_root_path sv) in
      let c := insert_parse_result (_local_cache sv) relative_file_path
                                   mod_ parse_result in
      _convert_single_file_to_document_symbols
        (set_local_cache sv c) relative_file_path abs_path source file_hash
        (pr_methods parse_result) mod_
  end.

(** The loop of [_index_files_with_local_parser] when the workers run
    one after the other and none times out. *)
Definition _index_files_with_local_parser (fs : str → option str)
    (sv : Server) (file_paths : list str) : Server :=
  foldl (_parse_file_local fs) sv file_paths.

Definition _invalidate_file_cache (fs : str → option str) (sv : Server)
    (relative_file_path : str) : Server :=
  let sv1 :=
    {| repository_root_path := repository_root_path sv;
       _local_cache :=
         remove_file_data (_local_cache sv) relative_file_path;
       _document_symbols_cache :=
         delete relative_file_path (_document_symbols_cache sv);
       _raw_document_symbols_cache :=
         delete relative_file_path (_raw_document_symbols_cache sv);
       _file_content_cache :=
         delete relative_file_path (_file_content_cache sv);
       _converted_files := _converted_files sv ∖ {[relative_file_path]} |} in
  _parse_file_local fs sv1 relative_file_path.

End Indexer.


(** What a successful re-parse of a file contributes to the cache: the
    entries, the call records (module level first, then per method) and
    the projected symbols of a parse result. *)
Definition entry_of (fname mod_ : str) (m : BSLMethod) : BSLMethodInfo :=
  {| method := m; filename := fname; module := mod_ |}.

Definition call_info_of (x : BSLCallPosition * str * str * str)
  : BSLCallInfo :=
  let '(cp, fname, method_name, mod_) := x in
  {| ci_filename := fname; ci_call := cp_call cp; ci_line := cp_line cp;
     ci_character := cp_character cp; ci_method_name := method_name;
     ci_module := mod_ |}.

Definition parsed_calls (fname mod_ : str) (parse_result : BSLParseResult)
  : list (BSLCallPosition * str * str * str) :=
  ((λ cp, (cp, fname, u "GlobalModuleText", mod_))
     <$> pr_global_calls parse_result)
  ++ concat ((λ m, (λ cp, (cp, fname, name m, mod_)) <$> calls_position m)
               <$> pr_methods parse_result).

Definition no_result : BSLParseResult :=
  {| pr_methods := []; pr_global_calls := []; pr_module_vars := [] |}.

Section Reparse.
Context `{PyRuntime}.

(** The text and parse result [_parse_file_local] works with when it
    gets as far as parsing: the file exists and is not blank. *)
Definition fresh_parse (fs : str → option str) (root fname : str)
  : option (str * BSLParseResult) :=
  match fs (path_join root fname) with
  | Some content =>
    let source := normalize_newlines content in
    if truthy (strip source) then Some (source, parse source) else None
  | None => None
  end.

End Reparse.

(** A list of line numbers in non-decreasing order. *)
Fixpoint sorted_lines (l : list nat) : Prop :=
  match l with
  | [] => True
  | x :: r => Forall (λ y, x ≤ y) r ∧ sorted_lines r
  end.

(** The line lies in the body range of the method. *)
Definition in_range (m : BSLMethod) (line_num : nat) : Prop :=
  line m ≤ line_num ≤ endline m.

Section LineKinds.
Context `{PyRuntime}.

(** The two tests [_find_method_end] applies to a line: whether it
    raises the depth (a declaration matched at the position that equals
    the count of leading white space), and whether it lowers it (no
    declaration matched, and the closing pattern found). *)
Definition raises_depth (line_text : str) : bool :=
  match (match search PROC_PATTERN line_text with
         | Some mt => Some mt
         | None => search FUNC_PATTERN line_text
         end) with
  | Some mt =>
    bool_decide (m_start mt = length line_text - length (lstrip line_text))
  | None => false
  end.

Definition lowers_depth (end_pattern : regex) (line_text : str) : bool :=
  match search PROC_PATTERN line_text, search FUNC_PATTERN line_text with
  | None, None => bool_decide (is_Some (search end_pattern line_text))
  | _, _ => false
  end.

End LineKinds.

(** ** What a query asks for

    The criteria of [find_methods] read as a predicate on entries: a
    [name] or [module] criterion compares the lower-cased field with the
    lower-cased value, or searches it with the compiled pattern; the
    module criterion never selects an entry without module; the export
    criterion is read from [is_export], else from [isExport]. *)
Section Criteria.
Context `{PyRuntime}.

Definition key_matches (criterion : option qval) (present : bool) (key : str)
  : bool :=
  match criterion with
  | None => true
  | Some (QRegex (Some pattern_search)) => present && pattern_search key
  | Some (QRegex None) => true
  | Some v => present && bool_decide (key = lower (py_str v))
  end.

Definition export_matches (q : gmap str qval) (e : BSLMethodInfo) : bool :=
  if bool_decide (is_Some (q !! u "is_export"))
     || bool_decide (is_Some (q !! u "isExport"))
  then
    if py_truthy (default (default (QBool false) (q !! u "isExport"))
                          (q !! u "is_export"))
    then is_export (method e) else negb (is_export (method e))
  else true.

Definition query_matches (q : gmap str qval) (e : BSLMethodInfo) : bool :=
  key_matches (q !! u "name") true (lower (name (method e)))
  && key_matches (q !! u "module") (truthy (module e)) (lower (module e))
  && export_matches q e
  && passes q e.

(** The query makes [re.compile] raise. *)
Definition query_raises (q : gmap str qval) : bool :=
  match q !! u "name", q !! u "module" with
  | Some (QRegex None), _ => true
  | _, Some (QRegex None) => true
  | _, _ => false
  end.

(** The positions of [ms] whose entry satisfies [P]. *)
Definition sel (ms : list BSLMethodInfo) (P : BSLMethodInfo → bool)
    (i : nat) : bool :=
  match ms !! i with Some e => P e | None => false end.

Definition selects (ms : list BSLMethodInfo) (X : gset nat)
    (P : BSLMethodInfo → bool) : Prop :=
  ∀ i, i ∈ X ↔ sel ms P i = true.

(** [candidate_indices] as a selection: [None] stands for all entries. *)
Definition oselects (ms : list BSLMethodInfo) (cand : option (gset nat))
    (P : BSLMethodInfo → bool) : Prop :=
  match cand with
  | Some X => selects ms X P
  | None => ∀ e, P e = true
  end.

End Criteria.

(** ** Keeping the caches in step with the files

    The functions that decide which files to index again and that
    drop the files that are gone. *)
Section Prefilter.
Context `{PyRuntime}.

(** [_compute_file_hash]: the digest of the normalised text, and the
    empty string when the file cannot be read. *)
Definition _compute_file_hash (fs : str → option str) (sv : Server)
    (relative_file_path : str) : str :=
  let abs_path := path_join (repository_root_path sv) relative_file_path in
  match fs abs_path with
  | Some content => md5 (normalize_newlines content)
  | None => []
  end.

Definition _is_file_cached (sv : Server) (relative_file_path : str)
    (file_hash : str) : bool :=
  let cache_key := relative_file_path in
  match _document_symbols_cache sv !! cache_key with
  | Some (cached_hash, _) => bool_decide (cached_hash = file_hash)
  | None => false
  end.

(** [_find_files_to_index]; the setting [enable_hash_prefiltering] is
    passed as an argument.  Neither call in the [try] block raises. *)
Definition _find_files_to_index (fs : str → option str)
    (enable_hash_prefiltering : bool) (sv : Server) (all_files : list str)
  : list str :=
  foldl (λ files_to_index file_path,
           let file_hash := _compute_file_hash fs sv file_path in
           if negb (truthy file_hash) then files_to_index ++ [file_path]
           else if enable_hash_prefiltering
                   && _is_file_cached sv file_path file_hash
                then files_to_index
                else files_to_index ++ [file_path])
        [] all_files.

(** The loop body of [_remove_deleted_files_from_cache] for one key of
    the projection cache.  The keys are strings, and a key taken from
    the dictionary is present when it is deleted, so the [try] block
    does not raise. *)
Definition remove_deleted_step (existing_files_set : gset str)
    (acc : Server * nat) (cache_key : str) : Server * nat :=
  let '(sv, removed_count) := acc in
  let relative_file_path := cache_key in
  if bool_decide (relative_file_path ∈ existing_files_set) then acc
  else
    ({| repository_root_path := repository_root_path sv;
        _local_cache := remove_file_data (_local_cache sv) relative_file_path;
        _document_symbols_cache :=
          delete cache_key (_document_symbols_cache sv);
        _raw_document_symbols_cache :=
          delete relative_file_path (_raw_document_symbols_cache sv);
        _file_content_cache :=
          delete relative_file_path (_file_content_cache sv);
        _converted_files := _converted_files sv ∖ {[relative_file_path]} |},
     S removed_count).

(** The loop over a list of keys; [_remove_deleted_files_from_cache]
    runs it over the keys of the projection cache, in the order of the
    dictionary. *)
Definition remove_deleted_loop (sv : Server) (existing_files : list str)
    (cache_keys : list str) : Server * nat :=
  foldl (remove_deleted_step (list_to_set existing_files)) (sv, 0) cache_keys.

Definition _remove_deleted_files_from_cache (sv : Server)
    (existing_files : list str) : Server * nat :=
  remove_deleted_loop sv existing_files
    (map_to_list (_document_symbols_cache sv)).*1.

(** The projection cache holds the file under the digest of its present
    text, when the file has text to parse. *)
Definition up_to_date (fs : str → option str) (sv : Server)
    (relative_file_path : str) : Prop :=
  match fresh_parse fs (repository_root_path sv) relative_file_path with
  | Some (source, _) =>
    fst <$> _document_symbols_cache sv !! relative_file_path
    = Some (md5 source)
  | None => True
  end.

End Prefilter.

(** Every call record is filed under the name of its callee. *)
Definition calls_keyed (c : BSLCache) : Prop :=
  ∀ k l ci, calls c !! k = Some l → ci ∈ l → ci_call ci = k.

(** ** A runtime instance for evaluating concrete inputs

    The rows of the Unicode tables for Basic Latin (U+0000 to U+007F) and
    for the Cyrillic letters U+0400 to U+045F, which is what the BSL
    keywords and the inputs evaluated below are written in, and the
    complete white-space table.  Code points outside these rows are left
    caseless and non-alphanumeric.  The digest is replaced by the text
    itself, a collision-free stand-in: only equality of digests is ever
    observed. *)
Module Sample.

Definition between (a b c : N) : bool := ((a <=? c) && (c <=? b))%N.

Definition sample_isspace (c : N) : bool :=
  between 9 13 c || between 28 32 c || (c =? 133)%N || (c =? 160)%N
  || (c =? 5760)%N || between 8192 8202 c || (c =? 8232)%N
  || (c =? 8233)%N || (c =? 8239)%N || (c =? 8287)%N || (c =? 12288)%N.

Definition sample_isalnum (c : N) : bool :=
  between 48 57 c || between 65 90 c || between 97 122 c
  || between 1024 1119 c.

Definition sample_tolower (c : N) : N :=
  if between 65 90 c then (c + 32)%N
  else if between 1024 1039 c then (c + 80)%N
  else if between 1040 1071 c then (c + 32)%N
  else c.

Definition sample_toupper (c : N) : N :=
  if between 97 122 c then (c - 32)%N
  else if between 1104 1119 c then (c - 80)%N
  else if between 1072 1103 c then (c - 32)%N
  else c.

#[export] Instance runtime : PyRuntime := {|
  isspace := sample_isspace;
  isalnum := sample_isalnum;
  tolower := sample_tolower;
  toupper := sample_toupper;
  lower := fmap sample_tolower;
  md5 := id;
|}.

(** Source texts given line by line. *)
Definition text (ls : list string) : str := join [NL] (u <$> ls).

(** An unterminated indented procedure followed by a complete one,
    the same two declarations without indentation, and a declaration
    nested inside another. *)
Definition indented_pair : str :=
  text ["  Процедура А()"; "  Процедура Б()"; "  КонецПроцедуры"]%string.

Definition flush_pair : str :=
  text ["Процедура А()"; "Процедура Б()"; "КонецПроцедуры"]%string.

Definition nested_pair : str :=
  text ["Процедура А()"; "  Процедура Б()"; "  КонецПроцедуры";
        "КонецПроцедуры"]%string.

Definition upper_case_var : str := u "Перем X ЭКСПОРТ;".

Definition upper_case_method : str :=
  text ["Процедура Т() ЭКСПОРТ"; "КонецПроцедуры"]%string.

(** A project with the single file [a.bsl], before and after an edit. *)
Definition root : str := u "/r".
Definition a_bsl : str := u "a.bsl".

Definition old_text : str :=
  text ["Процедура Старая()"; "КонецПроцедуры"]%string.

Definition new_text : str :=
  text ["Процедура Новая()"; "КонецПроцедуры"]%string.

Definition fs_with (content : str) (path : str) : option str :=
  if bool_decide (path = u "/r/a.bsl") then Some content else None.

Definition indexed_once : Server :=
  _index_files_with_local_parser (fs_with old_text) (Server_init root)
                                 [a_bsl].

Definition owners (sv : Server) : list (str * str) :=
  (λ e, (name (method e), filename e)) <$> methods (_local_cache sv).

Definition projected (sv : Server) (f : str) : option (list str) :=
  (λ entry : str * list Symbol, sy_name <$> entry.2)
    <$> (_document_symbols_cache sv !! f).

Definition spans (source : str) : list (str * nat * nat) :=
  (λ m, (name m, line m, endline m)) <$> pr_methods (parse source).

Definition a_method : BSLMethod :=
  {| name := u "Тест"; line := 0; endline := 2; isproc := true;
     is_export := true; params := []; description := [];
     context := []; calls_position := [] |}.

Definition misspelled_query : gmap str qval :=
  {[ u "nam" := QStr (u "Тест") ]}.

(** A module variable, a call at module level, an exported procedure
    with one call, and a function declared under a context directive. *)
Definition calls_text : str :=
  text ["Перем А;"; "Г();"; "Процедура Б() Экспорт"; "  В(1);";
        "КонецПроцедуры";
        "&НаСервереБезКонтекста Функция Д()"; "КонецФункции"]%string.

Definition call_v : BSLCallPosition :=
  {| cp_call := u "В"; cp_line := 3; cp_character := 2 |}.

Definition call_g : BSLCallPosition :=
  {| cp_call := u "Г"; cp_line := 1; cp_character := 0 |}.

Definition method_b : BSLMethod :=
  {| name := u "Б"; line := 2; endline := 4; isproc := true;
     is_export := true; params := []; description := [];
     context := []; calls_position := [call_v] |}.

Definition method_d : BSLMethod :=
  {| name := u "Д"; line := 5; endline := 6; isproc := false;
     is_export := false; params := []; description := [];
     context := u "НаСервере"; calls_position := [] |}.

(** A cache with one exported method of module [М]. *)
Definition one_method : BSLCache :=
  add_method BSLCache_init a_method (u "b.bsl") (u "М").

(** The same variable declared twice, exported the second time. *)
Definition redeclared_var : str :=
  text ["Перем X;"; "Перем X Экспорт;"]%string.

(** A project with the two files [a.bsl] and [b.bsl], both indexed. *)
Definition b_bsl : str := u "b.bsl".

Definition fs_two (path : str) : option str :=
  if bool_decide (path = u "/r/a.bsl") then Some old_text
  else if bool_decide (path = u "/r/b.bsl") then Some new_text
  else None.

Definition indexed_two : Server :=
  _index_files_with_local_parser fs_two (Server_init root) [a_bsl; b_bsl].

Definition bad_regex_query : gmap str qval :=
  {[ u "name" := QRegex None ]}.

Definition name_query : gmap str qval :=
  {[ u "name" := QStr (u "ТЕСТ") ]}.

End Sample.

(** * Properties *)

Section CacheFacts.
Context `{PyRuntime}.

Lemma lookup_dict_append {A} (k k' : str) (x : A) (d : gmap str (list A)) :
  dict_append k x d !! k'
  = if decide (k = k') then Some (default [] (d !! k) ++ [x]) else d !! k'.
Proof.
  unfold dict_append. rewrite lookup_alter.
  destruct (decide (k = k')) as [<-|Hne].
  - case_decide as Hs.
    + by destruct Hs as [l ->].
    + rewrite lookup_insert_eq. apply eq_None_not_Some in Hs. by rewrite Hs.
  - case_decide; [done|]. by rewrite lookup_insert_ne.
Qed.

Lemma default_nonempty {A} (l : list A) : default [] (nonempty l) = l.
Proof. by destruct l. Qed.

Lemma nonempty_snoc {A} (l : list A) x : nonempty (l ++ [x]) = Some (l ++ [x]).
Proof. by destruct l. Qed.

Lemma positions_from_app {A} (P : A → bool) i (l1 l2 : list A) :
  positions_from P i (l1 ++ l2)
  = positions_from P i l1 ++ positions_from P (i + length l1) l2.
Proof.
  revert i. induction l1 as [|a l1 IH]; intros i; simpl.
  - by rewrite Nat.add_0_r.
  - rewrite IH. replace (S i + length l1) with (i + S (length l1)) by lia.
    by destruct (P a).
Qed.

Lemma positions_snoc {A} (P : A → bool) (l : list A) x :
  positions P (l ++ [x])
  = positions P l ++ (if P x then [length l] else []).
Proof. unfold positions. rewrite positions_from_app. simpl. by destruct (P x). Qed.

Lemma elem_of_positions_from {A} (P : A → bool) i (l : list A) j :
  j ∈ positions_from P i l ↔ ∃ x, i ≤ j ∧ l !! (j - i) = Some x ∧ P x = true.
Proof.
  revert i. induction l as [|a l IH]; intros i; simpl.
  - split; [by intros ?%elem_of_nil | by intros (? & ? & ? & ?)].
  - destruct (P a) eqn:Ha.
    + rewrite elem_of_cons, IH. split.
      * intros [->|(x & Hle & Hx & HP)].
        -- exists a. rewrite Nat.sub_diag. done.
        -- exists x. split; [lia|]. split; [|done].
           replace (j - i) with (S (j - S i)) by lia. done.
      * intros (x & Hle & Hx & HP).
        destruct (decide (j = i)) as [->|Hne]; [by left|right].
        exists x. split; [lia|]. split; [|done].
        replace (j - i) with (S (j - S i)) in Hx by lia. done.
    + rewrite IH. split.
      * intros (x & Hle & Hx & HP). exists x. split; [lia|]. split; [|done].
        replace (j - i) with (S (j - S i)) by lia. done.
      * intros (x & Hle & Hx & HP).
        destruct (decide (j = i)) as [->|Hne].
        { rewrite Nat.sub_diag in Hx. simpl in Hx. congruence. }
        exists x. split; [lia|]. split; [|done].
        replace (j - i) with (S (j - S i)) in Hx by lia. done.
Qed.

(** Membership in [positions]: the reading of "exactly the positions
    holding an entry that satisfies [P]". *)
Lemma elem_of_positions {A} (P : A → bool) (l : list A) j :
  j ∈ positions P l ↔ ∃ x, l !! j = Some x ∧ P x = true.
Proof.
  unfold positions. rewrite elem_of_positions_from.
  rewrite Nat.sub_0_r. split.
  - intros (x & _ & ? & ?); eauto.
  - intros (x & ? & ?). exists x. split; [lia|done].
Qed.

Lemma index_method_consistent ms e ix :
  indexes_for ms ix →
  indexes_for (ms ++ [e]) (index_method (length ms) e ix).
Proof.
  destruct ix as [[ni mi] ei]. intros (Hn & Hm & He). simpl in *.
  unfold index_method. split; [|split]; simpl.
  - intros k. rewrite lookup_dict_append, positions_snoc.
    unfold has_name at 2. case_decide as Hk.
    + subst k. rewrite bool_decide_eq_true_2 by done.
      by rewrite Hn, default_nonempty, nonempty_snoc.
    + rewrite bool_decide_eq_false_2 by done. by rewrite app_nil_r.
  - intros k. rewrite positions_snoc. unfold has_module at 2.
    destruct (truthy (module e)); simpl.
    + rewrite lookup_dict_append. case_decide as Hk.
      * subst k. rewrite bool_decide_eq_true_2 by done.
        by rewrite Hm, default_nonempty, nonempty_snoc.
      * rewrite bool_decide_eq_false_2 by done. by rewrite app_nil_r.
    + by rewrite app_nil_r.
  - rewrite positions_snoc. unfold exported at 2.
    destruct (is_export (method e)); [by rewrite He|].
    by rewrite app_nil_r.
Qed.

Lemma enumerate_snoc {A} (l : list A) x :
  enumerate (l ++ [x]) = enumerate l ++ [(length l, x)].
Proof. unfold enumerate. rewrite imap_app. simpl. by rewrite Nat.add_0_r. Qed.

Lemma rebuilt_indexes_snoc ms e :
  rebuilt_indexes (ms ++ [e])
  = index_method (length ms) e (rebuilt_indexes ms).
Proof. unfold rebuilt_indexes. by rewrite enumerate_snoc, foldl_app. Qed.

Lemma rebuilt_indexes_consistent ms : indexes_for ms (rebuilt_indexes ms).
Proof.
  induction ms as [|e ms IH] using rev_ind.
  - by repeat split.
  - rewrite rebuilt_indexes_snoc. by apply index_method_consistent.
Qed.

(** Two index triples that are both exact for the same list are equal. *)
Lemma indexes_for_unique ms ix1 ix2 :
  indexes_for ms ix1 → indexes_for ms ix2 → ix1 = ix2.
Proof.
  destruct ix1 as [[n1 m1] e1], ix2 as [[n2 m2] e2].
  intros (Hn1 & Hm1 & He1) (Hn2 & Hm2 & He2). simpl in *.
  f_equal; [f_equal|]; [apply map_eq; intros k; by rewrite Hn1, Hn2
                       |apply map_eq; intros k; by rewrite Hm1, Hm2
                       |congruence].
Qed.

(** *** The removal loops of [remove_file_data] *)

Lemma delete_app_lt {A} (l t : list A) i :
  i < length l → delete i (l ++ t) = delete i l ++ t.
Proof.
  revert i. induction l as [|a l IH]; intros i Hi; simpl in *; [lia|].
  destruct i as [|i]; [done|]. simpl. f_equal. apply IH. lia.
Qed.

Lemma length_delete_lt {A} (l : list A) i :
  i < length l → length (delete i l) = length l - 1.
Proof. intros Hi. apply length_delete. by apply lookup_lt_is_Some. Qed.

Lemma desc_below_mono b b' idxs : b ≤ b' → desc_below b idxs → desc_below b' idxs.
Proof. destruct idxs; simpl; [done|]. intros ? [? ?]. split; [lia|done]. Qed.

Lemma filter_ext_Forall {A} (P Q : A → Prop) `{!∀ x, Decision (P x)}
    `{!∀ x, Decision (Q x)} (l : list A) :
  Forall (λ x, P x ↔ Q x) l → filter P l = filter Q l.
Proof.
  induction 1 as [|x l Hx _ IH]; [done|].
  rewrite !filter_cons, IH.
  destruct (decide (P x)), (decide (Q x)); tauto.
Qed.

Lemma pop_all_app ms t idxs :
  desc_below (length ms) idxs →
  pop_all (ms ++ t) idxs = pop_all ms idxs ++ t.
Proof.
  revert ms. induction idxs as [|i idxs IH]; intros ms; simpl; [done|].
  intros [Hi Hd]. unfold pop_all in *. simpl.
  rewrite delete_app_lt by done. apply IH.
  eapply desc_below_mono; [|done]. rewrite length_delete_lt by done. lia.
Qed.

Lemma rev_seq_S n : rev (seq 0 (S n)) = n :: rev (seq 0 n).
Proof. by rewrite seq_S, rev_app_distr. Qed.

Lemma desc_below_filter (P : nat → Prop) `{!∀ x, Decision (P x)} n :
  desc_below n (filter P (rev (seq 0 n))).
Proof.
  induction n as [|n IH]; [done|].
  rewrite rev_seq_S, filter_cons. case_decide; simpl.
  - split; [lia|done].
  - eapply desc_below_mono; [|done]. lia.
Qed.

Lemma indices_to_remove_snoc ms e fname :
  indices_to_remove (ms ++ [e]) fname
  = (if decide (filename e = fname) then [length ms] else [])
      ++ indices_to_remove ms fname.
Proof.
  unfold indices_to_remove.
  rewrite length_app, Nat.add_1_r, rev_seq_S, filter_cons.
  rewrite list_lookup_middle by done. simpl.
  assert (filter (λ idx, filename <$> (ms ++ [e]) !! idx = Some fname)
                 (rev (seq 0 (length ms)))
          = filter (λ idx, filename <$> ms !! idx = Some fname)
                   (rev (seq 0 (length ms)))) as ->.
  { apply filter_ext_Forall, Forall_forall. intros i Hi.
    apply list_elem_of_In, in_rev, in_seq in Hi.
    rewrite lookup_app_l by lia. done. }
  destruct (decide (filename e = fname)) as [->|Hne].
  - by rewrite decide_True.
  - rewrite decide_False; [done|congruence].
Qed.

(** Popping the collected positions from the end keeps exactly the
    entries of the other files, in their order. *)
Lemma pop_all_filter ms fname :
  pop_all ms (indices_to_remove ms fname)
  = filter (λ e, filename e ≠ fname) ms.
Proof.
  induction ms as [|e ms IH] using rev_ind; [done|].
  rewrite indices_to_remove_snoc, filter_app, filter_cons, filter_nil.
  destruct (decide (filename e = fname)) as [Heq|Hne]; simpl.
  - unfold pop_all in *. simpl. rewrite delete_middle, app_nil_r.
    rewrite decide_False by tauto. by rewrite app_nil_r.
  - rewrite decide_True by done.
    rewrite pop_all_app; [by rewrite IH|].
    apply desc_below_filter.
Qed.

Lemma filter_calls_spec (fname : str) (items : list (str * list BSLCallInfo))
    (cs0 : gmap str (list BSLCallInfo)) (rm0 : list str) (k : str) :
  NoDup items.*1 →
  (let '(cs', rm') := foldl (filter_calls_step fname) (cs0, rm0) items in
   foldl (λ cs call_name, delete call_name cs) cs' rm') !! k
  = if decide (k ∈ rm0) then None
    else match (list_to_map items : gmap str (list BSLCallInfo)) !! k with
         | Some l => nonempty (keep fname l)
         | None => cs0 !! k
         end.
Proof.
  revert cs0 rm0. induction items as [|[k1 l1] items IH]; intros cs0 rm0 Hnd.
  - simpl. rewrite lookup_empty. clear Hnd.
    revert cs0. induction rm0 as [|r rm0 IHr]; intros cs0; simpl.
    + done.
    + rewrite IHr. rewrite lookup_delete.
      destruct (decide (k ∈ rm0)) as [Hin|Hnin].
      * rewrite decide_True; [done|by right].
      * destruct (decide (r = k)) as [->|Hne].
        -- rewrite decide_True; [done|by left].
        -- rewrite decide_False; [done|].
           intros [->|?]%elem_of_cons; done.
  - apply NoDup_cons in Hnd as [Hk1 Hnd]. simpl in Hk1.
    change (foldl ?f ?a ((k1, l1) :: items))
      with (foldl f (f a (k1, l1)) items).
    unfold filter_calls_step at 2. cbn beta iota zeta.
    change (list_to_map ((k1, l1) :: items) : gmap str (list BSLCallInfo))
      with (<[k1 := l1]> (list_to_map items : gmap str (list BSLCallInfo))).
    rewrite lookup_insert.
    destruct (filter (λ ci, ci_filename ci ≠ fname) l1) as [|c1 f1] eqn:Hf.
    + rewrite IH by done.
      destruct (decide (k1 = k)) as [->|Hne].
      * unfold keep. rewrite Hf. simpl.
        rewrite decide_True; [by case_decide|].
        apply elem_of_app. right. by left.
      * destruct (decide (k ∈ rm0)) as [Hin|Hnin].
        -- rewrite decide_True; [done|]. apply elem_of_app. by left.
        -- rewrite decide_False; [done|].
           intros [?|?%list_elem_of_singleton]%elem_of_app; congruence.
    + rewrite IH by done.
      destruct (decide (k ∈ rm0)) as [Hin|Hnin]; [done|].
      destruct (decide (k1 = k)) as [->|Hne].
      * rewrite (not_elem_of_list_to_map_1 _ _ Hk1), lookup_insert_eq.
        unfold keep. by rewrite Hf.
      * by rewrite lookup_insert_ne.
Qed.

(** The buckets after the call-removal pass: each bucket loses the
    file's records and disappears when nothing is left. *)
Lemma lookup_remove_calls (cs : gmap str (list BSLCallInfo)) (fname k : str) :
  remove_calls cs fname !! k = cs !! k ≫= (λ l, nonempty (keep fname l)).
Proof.
  unfold remove_calls, filter_calls.
  pose proof (filter_calls_spec fname (map_to_list cs) cs [] k
                (NoDup_fst_map_to_list cs)) as Hs.
  rewrite list_to_map_to_list in Hs.
  rewrite decide_False in Hs by apply not_elem_of_nil.
  etrans; [exact Hs|]. by destruct (cs !! k).
Qed.

Lemma remove_file_data_unfold c fname :
  remove_file_data c fname
  = let ms := filter (λ e, filename e ≠ fname) (methods c) in
    {| methods := ms;
       module_vars := delete fname (module_vars c);
       calls := remove_calls (calls c) fname;
       modules := filter (λ mo, mo_filename mo ≠ fname) (modules c);
       _method_name_index := (rebuilt_indexes ms).1.1;
       _method_module_index := (rebuilt_indexes ms).1.2;
       _method_export_index := (rebuilt_indexes ms).2 |}.
Proof.
  unfold remove_file_data, _rebuild_indices. simpl.
  rewrite pop_all_filter.
  by destruct (rebuilt_indexes _) as [[? ?] ?].
Qed.

Lemma remove_file_data_fields c fname :
  methods (remove_file_data c fname)
  = filter (λ e, filename e ≠ fname) (methods c)
  ∧ module_vars (remove_file_data c fname) = delete fname (module_vars c)
  ∧ modules (remove_file_data c fname)
    = filter (λ mo, mo_filename mo ≠ fname) (modules c).
Proof. by rewrite remove_file_data_unfold. Qed.

Lemma remove_file_data_consistent c fname :
  consistent (remove_file_data c fname).
Proof.
  rewrite remove_file_data_unfold. unfold consistent. simpl.
  rewrite <- !surjective_pairing. apply rebuilt_indexes_consistent.
Qed.

Lemma add_method_consistent c m fname mod_ :
  consistent c → consistent (add_method c m fname mod_).
Proof.
  unfold consistent, add_method. intros Hc.
  pose proof (index_method_consistent _
                {| method := m; filename := fname; module := mod_ |} _ Hc)
    as Hi.
  by destruct (index_method _ _ _) as [[? ?] ?].
Qed.

Lemma add_methods_batch_consistent c l :
  consistent c → consistent (add_methods_batch c l).
Proof.
  unfold add_methods_batch. revert c.
  induction l as [|[[m f] mo] l IH]; intros c Hc; simpl; [done|].
  by apply IH, add_method_consistent.
Qed.

Lemma add_module_vars_batch_indexes c l :
  methods (add_module_vars_batch c l) = methods c
  ∧ _method_name_index (add_module_vars_batch c l) = _method_name_index c
  ∧ _method_module_index (add_module_vars_batch c l) = _method_module_index c
  ∧ _method_export_index (add_module_vars_batch c l) = _method_export_index c
  ∧ calls (add_module_vars_batch c l) = calls c
  ∧ modules (add_module_vars_batch c l) = modules c.
Proof.
  unfold add_module_vars_batch. revert c.
  induction l as [|[v f] l IH]; intros c; simpl; [done|].
  destruct (IH (add_module_var c v f)) as (-> & -> & -> & -> & -> & ->).
  done.
Qed.

Lemma add_calls_batch_indexes c l :
  methods (add_calls_batch c l) = methods c
  ∧ _method_name_index (add_calls_batch c l) = _method_name_index c
  ∧ _method_module_index (add_calls_batch c l) = _method_module_index c
  ∧ _method_export_index (add_calls_batch c l) = _method_export_index c
  ∧ module_vars (add_calls_batch c l) = module_vars c
  ∧ modules (add_calls_batch c l) = modules c.
Proof.
  unfold add_calls_batch. revert c.
  induction l as [|[[[cp f] mn] mo] l IH]; intros c; simpl; [done|].
  destruct (IH (add_call c cp f mn mo)) as (-> & -> & -> & -> & -> & ->).
  done.
Qed.

Lemma apply_op_consistent c o : consistent c → consistent (apply_op c o).
Proof.
  intros Hc.
  destruct o as [m f mo|v f|cp f mn mo|ml|vl|cl|mi|f|]; simpl.
  - by apply add_method_consistent.
  - done.
  - done.
  - by apply add_methods_batch_consistent.
  - unfold consistent.
    by destruct (add_module_vars_batch_indexes c vl)
      as (-> & -> & -> & -> & _).
  - unfold consistent.
    by destruct (add_calls_batch_indexes c cl)
      as (-> & -> & -> & -> & _).
  - done.
  - apply remove_file_data_consistent.
  - by repeat split.
Qed.

Lemma run_consistent ops c : consistent c → consistent (run ops c).
Proof.
  unfold run. revert c. induction ops as [|o ops IH]; intros c Hc; [done|].
  simpl. by apply IH, apply_op_consistent.
Qed.

(** *** Buckets are never empty *)

Lemma add_call_no_empty_bucket c cp f mn mo :
  no_empty_bucket c → no_empty_bucket (add_call c cp f mn mo).
Proof.
  unfold no_empty_bucket, add_call. simpl. intros Hc k l.
  rewrite lookup_dict_append. case_decide; [|by apply Hc].
  intros [= <-]. by destruct (default [] _).
Qed.

Lemma add_calls_batch_no_empty_bucket c l :
  no_empty_bucket c → no_empty_bucket (add_calls_batch c l).
Proof.
  unfold add_calls_batch. revert c.
  induction l as [|[[[cp f] mn] mo] l IH]; intros c Hc; simpl; [done|].
  by apply IH, add_call_no_empty_bucket.
Qed.

Lemma add_methods_batch_calls c l :
  calls (add_methods_batch c l) = calls c
  ∧ module_vars (add_methods_batch c l) = module_vars c
  ∧ modules (add_methods_batch c l) = modules c.
Proof.
  unfold add_methods_batch. revert c.
  induction l as [|[[m f] mo] l IH]; intros c; simpl; [done|].
  destruct (IH (add_method c m f mo)) as (-> & -> & ->).
  unfold add_method. by destruct (index_method _ _ _) as [[? ?] ?].
Qed.

Lemma nonempty_Some {A} (l l' : list A) : nonempty l = Some l' → l' = l ∧ l ≠ [].
Proof. destruct l; [done|]. by intros [= <-]. Qed.

Lemma remove_file_data_no_empty_bucket c fname :
  no_empty_bucket (remove_file_data c fname).
Proof.
  rewrite remove_file_data_unfold. unfold no_empty_bucket. simpl.
  intros k l. rewrite lookup_remove_calls.
  destruct (calls c !! k) as [l0|]; simpl; [|done].
  intros [-> ?]%nonempty_Some. done.
Qed.

Lemma apply_op_no_empty_bucket c o :
  no_empty_bucket c → no_empty_bucket (apply_op c o).
Proof.
  intros Hc.
  destruct o as [m f mo|v f|cp f mn mo|ml|vl|cl|mi|f|]; simpl.
  - unfold no_empty_bucket, add_method.
    by destruct (index_method _ _ _) as [[? ?] ?].
  - done.
  - by apply add_call_no_empty_bucket.
  - unfold no_empty_bucket.
    by destruct (add_methods_batch_calls c ml) as (-> & _).
  - unfold no_empty_bucket.
    by destruct (add_module_vars_batch_indexes c vl)
      as (_ & _ & _ & _ & -> & _).
  - by apply add_calls_batch_no_empty_bucket.
  - done.
  - apply remove_file_data_no_empty_bucket.
  - intros k l. unfold clear. simpl. by rewrite lookup_empty.
Qed.

Lemma run_no_empty_bucket ops c :
  no_empty_bucket c → no_empty_bucket (run ops c).
Proof.
  unfold run. revert c. induction ops as [|o ops IH]; intros c Hc; [done|].
  simpl. by apply IH, apply_op_no_empty_bucket.
Qed.

(** *** Queries *)

Lemma collect_elem c q X e : e ∈ collect c q X → e ∈ methods c.
Proof.
  unfold collect. rewrite list_elem_of_omap. intros (idx & _ & He).
  destruct (methods c !! idx) as [e'|] eqn:Hl; [|done].
  destruct (passes q e'); [|done]. injection He as <-.
  by eapply list_elem_of_lookup_2.
Qed.

Lemma find_methods_elem c q r e :
  find_methods c q = Some r → e ∈ r → e ∈ methods c.
Proof.
  unfold find_methods. destruct q as [q|]; [|by intros [= <-]].
  case_decide; [by intros [= <-]|].
  destruct (filter_by_index _ _ None) as [cand1|]; [|done].
  destruct (filter_by_index _ _ cand1) as [cand2|]; [|done].
  intros [= <-]. apply collect_elem.
Qed.

Lemma length_filter_split {A} (P : A → Prop) `{!∀ x, Decision (P x)}
    (l : list A) :
  length (filter (λ x, ¬ P x) l) + length (filter P l) = length l.
Proof.
  induction l as [|x l IH]; [done|].
  rewrite !filter_cons. destruct (decide (P x)).
  - rewrite decide_False by tauto. simpl. lia.
  - rewrite decide_True by done. simpl. lia.
Qed.

Lemma omap_lookup_seq_from {A} (pre l : list A) :
  omap (λ i, (pre ++ l) !! i) (seq (length pre) (length l)) = l.
Proof.
  revert pre. induction l as [|x l IH]; intros pre; [done|].
  simpl. rewrite list_lookup_middle by done. f_equal.
  specialize (IH (pre ++ [x])).
  rewrite length_app, Nat.add_1_r, <- app_assoc in IH. done.
Qed.

Lemma omap_lookup_seq {A} (l : list A) :
  omap (λ i, l !! i) (seq 0 (length l)) = l.
Proof. apply (omap_lookup_seq_from [] l). Qed.

Lemma elements_set_seq n : elements (set_seq 0 n : gset nat) ≡ₚ seq 0 n.
Proof.
  apply NoDup_Permutation; [apply NoDup_elements|apply NoDup_seq|].
  intros x. rewrite elem_of_elements, elem_of_set_seq, elem_of_seq. done.
Qed.

Lemma filter_id {A} (P : A → Prop) `{!∀ x, Decision (P x)} (l : list A) :
  Forall P l → filter P l = l.
Proof.
  induction 1 as [|x l Hx _ IH]; [done|].
  by rewrite filter_cons, decide_True, IH.
Qed.

Lemma keep_keep fname l : keep fname (keep fname l) = keep fname l.
Proof. unfold keep. apply list_filter_filter_l. done. Qed.

Lemma elem_of_keep fname l ci :
  ci ∈ keep fname l ↔ ci_filename ci ≠ fname ∧ ci ∈ l.
Proof. unfold keep. by rewrite list_elem_of_filter. Qed.

Lemma find_calls_remove c fname k :
  find_calls (remove_file_data c fname) k = keep fname (find_calls c k).
Proof.
  unfold find_calls. rewrite remove_file_data_unfold. simpl.
  rewrite lookup_remove_calls.
  destruct (calls c !! k) as [l|]; simpl; [|done].
  apply default_nonempty.
Qed.

End CacheFacts.

(** ** Claims about the symbol cache *)

Section CacheClaims.
Context `{PyRuntime}.

(** C2. [remove_file_data f] keeps exactly the method entries of the
    other files (in their order), deletes [f]'s module-variable
    collection, removes [f]'s call records from every callee bucket and
    drops the buckets that become empty, removes [f]'s module-metadata
    records, and leaves the indexes exact for the new method list.  The
    [methods] statistic decreases by the number of entries [f] owned,
    no query returns an entry of [f], and on a cache that is in a state
    the operations produce (exact indexes, no empty bucket) a file that
    owns nothing is left unchanged. *)
Theorem remove_file_data_spec (c : BSLCache) (fname : str) :
  let c' := remove_file_data c fname in
  methods c' = filter (λ e, filename e ≠ fname) (methods c)
  ∧ module_vars c' = delete fname (module_vars c)
  ∧ (∀ k, calls c' !! k = calls c !! k ≫= (λ l, nonempty (keep fname l)))
  ∧ (∀ k, find_calls c' k = keep fname (find_calls c k))
  ∧ modules c' = filter (λ mo, mo_filename mo ≠ fname) (modules c)
  ∧ consistent c'
  ∧ st_methods (get_stats c')
    + length (filter (λ e, filename e = fname) (methods c))
    = st_methods (get_stats c)
  ∧ (∀ q r e, find_methods c' q = Some r → e ∈ r → filename e ≠ fname)
  ∧ (∀ k ci, ci ∈ find_calls c' k → ci_filename ci ≠ fname)
  ∧ (consistent c → no_empty_bucket c → unknown_file c fname → c' = c).
Proof.
  intros c'.
  destruct (remove_file_data_fields c fname) as (Hm & Hv & Ho).
  fold c' in Hm, Hv, Ho.
  split; [done|]. split; [done|].
  split. { intros k. unfold c'. rewrite remove_file_data_unfold. simpl.
           apply lookup_remove_calls. }
  split; [apply find_calls_remove|].
  split; [done|].
  split; [apply remove_file_data_consistent|].
  split. { unfold get_stats. cbn [st_methods]. rewrite Hm.
           apply (length_filter_split (λ e, filename e = fname)). }
  split. { intros q r e Hq He. apply (find_methods_elem _ _ _ _ Hq) in He.
           rewrite Hm in He. by apply list_elem_of_filter in He as [? _]. }
  split. { intros k ci. unfold c'. rewrite find_calls_remove, elem_of_keep.
           tauto. }
  intros Hc Hb (Hum & Huv & Huc & Huo). unfold c'.
  rewrite remove_file_data_unfold. cbn zeta.
  assert (filter (λ e, filename e ≠ fname) (methods c) = methods c) as ->.
  { apply filter_id, Forall_forall. done. }
  rewrite (indexes_for_unique _ _ _ (rebuilt_indexes_consistent _) Hc).
  simpl. rewrite delete_id by done.
  rewrite filter_id by (by apply Forall_forall).
  assert (remove_calls (calls c) fname = calls c) as ->.
  { apply map_eq. intros k. rewrite lookup_remove_calls.
    destruct (calls c !! k) as [l|] eqn:Hl; simpl; [|done].
    unfold keep. rewrite filter_id.
    - specialize (Hb k l Hl). by destruct l.
    - apply Forall_forall. intros ci Hci. by eapply Huc. }
  by destruct c.
Qed.

(** C3. After any sequence of mutating operations on a fresh cache the
    three secondary indexes are exact: a key of the name index is
    present exactly when some entry has that lower-cased name and maps
    to the increasing list of the positions of those entries; likewise
    the module index for entries with a non-empty module; the export
    index is the list of positions of the exported entries. *)
Theorem indexes_consistent_after_ops (ops : list op) :
  consistent (run ops BSLCache_init).
Proof. apply run_consistent. by repeat split. Qed.

(** C8. Removing a file's data twice in a row leaves the cache in the
    state reached after the first removal. *)
Theorem remove_file_data_idempotent (c : BSLCache) (fname : str) :
  remove_file_data (remove_file_data c fname) fname
  = remove_file_data c fname.
Proof.
  rewrite (remove_file_data_unfold (remove_file_data c fname)).
  rewrite !remove_file_data_unfold. cbn zeta. simpl.
  rewrite !list_filter_filter_l by done.
  rewrite delete_delete_eq.
  f_equal. apply map_eq. intros k. rewrite !lookup_remove_calls.
  destruct (calls c !! k) as [l|]; simpl; [|done].
  destruct (nonempty (keep fname l)) as [l'|] eqn:Hl; simpl; [|done].
  apply nonempty_Some in Hl as [-> Hne]. rewrite keep_keep.
  by destruct (keep fname l).
Qed.

Lemma add_methods_batch_run c l :
  add_methods_batch c l
  = run ((λ '(m, f, mo), AddMethod m f mo) <$> l) c.
Proof.
  unfold add_methods_batch, run. revert c.
  induction l as [|[[m f] mo] l IH]; intros c; simpl; [done|]. apply IH.
Qed.

(** C7. A batch insertion produces the same cache state as the single
    operations applied one by one in the same order, for methods, for
    module variables and for calls; in particular [find_methods({})]
    returns the same entries. *)
Theorem batch_equals_one_by_one (c : BSLCache)
    (methods_data : list (BSLMethod * str * str))
    (vars_data : list (BSLModuleVar * str))
    (calls_data : list (BSLCallPosition * str * str * str)) :
  let singles := (λ '(m, f, mo), AddMethod m f mo) <$> methods_data in
  add_methods_batch c methods_data = run singles c
  ∧ (∃ r1 r2,
        find_methods (add_methods_batch c methods_data) (Some ∅) = Some r1
        ∧ find_methods (run singles c) (Some ∅) = Some r2
        ∧ r1 ≡ₚ r2)
  ∧ add_module_vars_batch c vars_data
    = run ((λ '(v, f), AddModuleVar v f) <$> vars_data) c
  ∧ add_calls_batch c calls_data
    = run ((λ '(cp, f, mn, mo), AddCall cp f mn mo) <$> calls_data) c.
Proof.
  intros singles. split; [apply add_methods_batch_run|].
  split.
  { exists (methods (add_methods_batch c methods_data)),
           (methods (run singles c)).
    split; [done|]. split; [done|].
    unfold singles. by rewrite add_methods_batch_run. }
  split.
  - unfold add_module_vars_batch, run. revert c.
    induction vars_data as [|[v f] l IH]; intros c; simpl; [done|]. apply IH.
  - unfold add_calls_batch, run. revert c.
    induction calls_data as [|[[[cp f] mn] mo] l IH]; intros c; simpl;
      [done|]. apply IH.
Qed.

(** C9. A non-empty query none of whose keys is recognised selects
    every stored entry: no exception, no filtering. *)
Theorem find_methods_unknown_keys (c : BSLCache) (q : gmap str qval) :
  size q ≠ 0 →
  q !! u "name" = None → q !! u "module" = None →
  q !! u "is_export" = None → q !! u "isExport" = None →
  q !! u "context" = None → q !! u "isproc" = None →
  ∃ r, find_methods c (Some q) = Some r ∧ r ≡ₚ methods c.
Proof.
  intros Hsz Hn Hm He1 He2 Hc Hp.
  unfold find_methods. rewrite decide_False by done.
  rewrite Hn, Hm. simpl. unfold filter_by_export. rewrite He1, He2.
  rewrite !bool_decide_eq_false_2 by (by intros [? ?]). simpl.
  eexists. split; [done|].
  unfold collect. rewrite elements_set_seq.
  trans (omap (λ i, methods c !! i) (seq 0 (length (methods c))));
    [|by rewrite omap_lookup_seq].
  apply reflexive_eq. apply list_omap_ext, Forall2_same_length_lookup.
  split; [done|]. intros i x y Hx Hy. assert (x = y) as -> by congruence.
  destruct (methods c !! y) as [e|]; [|done].
  unfold passes. by rewrite Hc, Hp.
Qed.

End CacheClaims.

(** ** Claims about the module identifier *)

Section ModulePath.

Lemma split_no_sep sep (p : str) : sep ∉ p → split sep p = [p].
Proof.
  induction p as [|c p IH]; [done|]. intros Hn.
  apply not_elem_of_cons in Hn as [Hc Hp]. simpl.
  rewrite (proj2 (N.eqb_neq c sep)) by congruence. by rewrite IH.
Qed.

Lemma split_app_sep sep (p r : str) :
  sep ∉ p → split sep (p ++ sep :: r) = p :: split sep r.
Proof.
  induction p as [|c p IH]; intros Hn; simpl.
  - by rewrite N.eqb_refl.
  - apply not_elem_of_cons in Hn as [Hc Hp].
    rewrite (proj2 (N.eqb_neq c sep)) by congruence. by rewrite IH.
Qed.

Lemma split_join sep (segs : list str) :
  segs ≠ [] → Forall (λ p, sep ∉ p) segs →
  split sep (join [sep] segs) = segs.
Proof.
  intros Hne Hall. induction Hall as [|p segs Hp Hall IH]; [done|].
  destruct segs as [|q segs].
  - simpl. by apply split_no_sep.
  - change (join [sep] (p :: q :: segs))
      with (p ++ sep :: join [sep] (q :: segs)).
    rewrite split_app_sep by done. f_equal. by apply IH.
Qed.





End ModulePath.

(** ** Facts about the parser *)

Section ParserFacts.
Context `{PyRuntime}.

Lemma find_end_loop_Some end_pattern ls i depth e :
  find_end_loop end_pattern ls i depth = Some e →
  i ≤ e < i + length ls
  ∧ ∃ line_text, ls !! (e - i) = Some line_text
                 ∧ is_Some (search end_pattern line_text)
                 ∧ search PROC_PATTERN line_text = None
                 ∧ search FUNC_PATTERN line_text = None.
Proof.
  revert i depth. induction ls as [|l ls IH]; intros i depth; [done|].
  assert (∀ d, find_end_loop end_pattern ls (S i) d = Some e →
               i ≤ e < i + length (l :: ls)
               ∧ ∃ line_text, (l :: ls) !! (e - i) = Some line_text
                              ∧ is_Some (search end_pattern line_text)
                              ∧ search PROC_PATTERN line_text = None
                              ∧ search FUNC_PATTERN line_text = None) as Hrec.
  { intros d Hd. destruct (IH _ _ Hd) as ([? ?] & lt & Hlt & ?).
    split; [simpl; lia|]. exists lt. split; [|done].
    replace (e - i) with (S (e - S i)) by lia. done. }
  simpl.
  destruct (search PROC_PATTERN l) as [mt|] eqn:Hp.
  { case_decide; apply Hrec. }
  destruct (search FUNC_PATTERN l) as [mt|] eqn:Hf.
  { case_decide; apply Hrec. }
  destruct (search end_pattern l) as [mt|] eqn:He; [|apply Hrec].
  case_decide; [|apply Hrec].
  intros [= <-]. split; [simpl; lia|]. exists l.
  rewrite Nat.sub_diag. rewrite He. eauto.
Qed.

Lemma _find_method_end_Some source start_line is_proc e :
  _find_method_end source start_line is_proc = Some e →
  start_line < e < length (split NL source)
  ∧ ∃ line_text,
      split NL source !! e = Some line_text
      ∧ is_Some (search (if is_proc then PROC_END_PATTERN
                         else FUNC_END_PATTERN) line_text).
Proof.
  unfold _find_method_end. intros He.
  apply find_end_loop_Some in He as ([H1 H2] & lt & Hlt & Hs & _).
  rewrite length_drop in H2. split; [lia|].
  exists lt. split; [|done].
  rewrite lookup_drop in Hlt.
  replace (start_line + 1 + (e - (start_line + 1))) with e in Hlt by lia.
  done.
Qed.

Lemma insert_by_line_perm m l : insert_by_line m l ≡ₚ m :: l.
Proof.
  induction l as [|m' l IH]; [done|]. simpl. case_decide; [done|].
  rewrite IH. apply Permutation_swap.
Qed.

Lemma sort_by_line_perm l : sort_by_line l ≡ₚ l.
Proof.
  induction l as [|m l IH]; [done|]. simpl.
  by rewrite insert_by_line_perm, IH.
Qed.

(** Where a method of a parse result comes from: a match of one of the
    two declaration patterns that [_parse_method_from_match] accepted,
    with the call list attached afterwards. *)
Lemma parse_method_origin source m :
  m ∈ pr_methods (parse source) →
  ∃ mt (is_proc : bool) m0,
    mt ∈ finditer (if is_proc then PROC_PATTERN else FUNC_PATTERN) source
    ∧ _parse_method_from_match source (split NL source) mt is_proc = Some m0
    ∧ m = with_calls m0 (_parse_method_calls source (split NL source) m0).
Proof.
  unfold parse. simpl. rewrite list_elem_of_fmap.
  intros (m0 & -> & Hm0). unfold _parse_methods in Hm0.
  rewrite sort_by_line_perm in Hm0.
  apply elem_of_app in Hm0 as [Hm0|Hm0];
    apply list_elem_of_omap in Hm0 as (mt & Hmt & Hp).
  - by exists mt, true, m0.
  - by exists mt, false, m0.
Qed.

(** Every returned method lies strictly inside the text: its start
    line is before its end line, the end line is a line of the input,
    and that line carries the closing keyword of the method's kind. *)
Lemma parse_method_bounds source m :
  m ∈ pr_methods (parse source) →
  line m < endline m < length (split NL source)
  ∧ ∃ line_text,
      split NL source !! endline m = Some line_text
      ∧ is_Some (search (if isproc m then PROC_END_PATTERN
                         else FUNC_END_PATTERN) line_text).
Proof.
  intros (mt & is_proc & m0 & _ & Hp & ->)%parse_method_origin.
  unfold _parse_method_from_match in Hp.
  destruct (_find_method_end _ _ _) as [e|] eqn:He; [|done].
  injection Hp as <-. simpl.
  by apply _find_method_end_Some in He.
Qed.

(** A declaration whose closing keyword is not found yields no
    method. *)
Lemma unterminated_method_dropped source lines mt is_proc :
  _find_method_end source
    (resolve_start_line lines (default [] (group 1 source mt))
       (count_char NL (take (m_start mt) source))) is_proc = None →
  _parse_method_from_match source lines mt is_proc = None.
Proof. unfold _parse_method_from_match. by intros ->. Qed.

Lemma dict_set_elem {V} k (v : V) d k' v' :
  (k', v') ∈ dict_set k v d → (k', v') = (k, v) ∨ (k', v') ∈ d.
Proof.
  induction d as [|[k0 v0] d IH]; simpl.
  - intros ?%list_elem_of_singleton. by left.
  - case_decide.
    + intros [?|?]%elem_of_cons; [by left|]. right. by right.
    + intros [->|?]%elem_of_cons; [right; by left|].
      destruct IH as [?|?]; [done|by left|]. right. by right.
Qed.

Lemma parse_module_vars_origin source lines k v :
  (k, v) ∈ _parse_module_vars source lines →
  ∃ mt, mt ∈ finditer MODULE_VAR_PATTERN source
        ∧ v = module_var_of_match source lines mt
        ∧ k = v_name v.
Proof.
  unfold _parse_module_vars.
  assert (∀ mts acc,
            (∀ k v, (k, v) ∈ acc →
                    ∃ mt, mt ∈ finditer MODULE_VAR_PATTERN source
                          ∧ v = module_var_of_match source lines mt
                          ∧ k = v_name v) →
            (∀ mt, mt ∈ mts → mt ∈ finditer MODULE_VAR_PATTERN source) →
            (k, v) ∈ foldl (λ vars_dict mt,
                              let var := module_var_of_match source lines mt in
                              dict_set (v_name var) var vars_dict) acc mts →
            ∃ mt, mt ∈ finditer MODULE_VAR_PATTERN source
                  ∧ v = module_var_of_match source lines mt
                  ∧ k = v_name v) as Hgen.
  { induction mts as [|mt mts IH]; intros acc Hacc Hin; simpl.
    - apply Hacc.
    - apply IH.
      + intros k' v' [[= -> ->]|?]%dict_set_elem; [|by apply Hacc].
        exists mt. split; [apply Hin; by left|done].
      + intros mt' ?. apply Hin. by right. }
  apply Hgen; [by intros ? ? ?%elem_of_nil|done].
Qed.

End ParserFacts.

(** ** Facts about re-indexing *)

Section IndexerFacts.
Context `{PyRuntime}.

Lemma add_method_methods c m f mo :
  methods (add_method c m f mo) = methods c ++ [entry_of f mo m]
  ∧ module_vars (add_method c m f mo) = module_vars c
  ∧ calls (add_method c m f mo) = calls c
  ∧ modules (add_method c m f mo) = modules c.
Proof. unfold add_method. by destruct (index_method _ _ _) as [[? ?] ?]. Qed.

Lemma add_methods_batch_methods c l :
  methods (add_methods_batch c l)
  = methods c ++ ((λ x, entry_of x.1.2 x.2 x.1.1) <$> l).
Proof.
  unfold add_methods_batch. revert c.
  induction l as [|[[m f] mo] l IH]; intros c; simpl.
  - by rewrite app_nil_r.
  - rewrite IH. destruct (add_method_methods c m f mo) as (-> & _).
    by rewrite <- app_assoc.
Qed.

Lemma find_calls_add_call c cp f mn mo k :
  find_calls (add_call c cp f mn mo) k
  = find_calls c k
    ++ filter (λ ci, ci_call ci = k) [call_info_of (cp, f, mn, mo)].
Proof.
  unfold find_calls, add_call. simpl. rewrite lookup_dict_append.
  rewrite filter_cons, filter_nil. simpl. case_decide as Hk.
  - subst k. done.
  - by rewrite app_nil_r.
Qed.

Lemma find_calls_add_calls_batch c l k :
  find_calls (add_calls_batch c l) k
  = find_calls c k ++ filter (λ ci, ci_call ci = k) (call_info_of <$> l).
Proof.
  unfold add_calls_batch. revert c.
  induction l as [|[[[cp f] mn] mo] l IH]; intros c; simpl.
  - by rewrite app_nil_r.
  - rewrite IH, find_calls_add_call, <- app_assoc. f_equal.
    by rewrite <- filter_app.
Qed.

Lemma module_vars_add_module_var c v f k :
  default [] (module_vars (add_module_var c v f) !! k)
  = default [] (module_vars c !! k) ++ (if decide (f = k) then [v] else []).
Proof.
  unfold add_module_var. simpl. rewrite lookup_dict_append.
  case_decide; [by subst|]. by rewrite app_nil_r.
Qed.

Lemma module_vars_add_module_vars_batch c l k :
  default [] (module_vars (add_module_vars_batch c l) !! k)
  = default [] (module_vars c !! k)
    ++ (fst <$> filter (λ x, x.2 = k) l).
Proof.
  unfold add_module_vars_batch. revert c.
  induction l as [|[v f] l IH]; intros c; simpl.
  - by rewrite app_nil_r.
  - rewrite IH, module_vars_add_module_var, <- app_assoc. f_equal.
    rewrite filter_cons. simpl. by case_decide.
Qed.

Lemma filter_vars_other_file (f k : str) (l : list (str * BSLModuleVar)) :
  k ≠ f →
  filter (λ x : BSLModuleVar * str, x.2 = k) ((λ kv, (kv.2, f)) <$> l) = [].
Proof.
  intros Hk. induction l as [|kv l IH]; [done|].
  rewrite fmap_cons, filter_cons. simpl.
  by rewrite decide_False by congruence.
Qed.

(** The cache after the insertions of one parse result. *)
Lemma insert_parse_result_spec c f mo pr :
  let c' := insert_parse_result c f mo pr in
  methods c' = methods c ++ (entry_of f mo <$> pr_methods pr)
  ∧ (∀ k, default [] (module_vars c' !! k)
          = default [] (module_vars c !! k)
            ++ (if decide (k = f) then snd <$> pr_module_vars pr else []))
  ∧ (∀ k, find_calls c' k
          = find_calls c k
            ++ filter (λ ci, ci_call ci = k)
                      (call_info_of <$> parsed_calls f mo pr))
  ∧ modules c' = modules c.
Proof.
  intros c'. unfold c', insert_parse_result.
  set (c1 := if pr_methods pr is [] then c
             else add_methods_batch c ((λ m, (m, f, mo)) <$> pr_methods pr)).
  set (c2 := if pr_module_vars pr is [] then c1
             else add_module_vars_batch c1
                    ((λ kv, (kv.2, f)) <$> pr_module_vars pr)).
  set (c3 := if pr_global_calls pr is [] then c2
             else add_calls_batch c2
                    ((λ cp, (cp, f, u "GlobalModuleText", mo))
                       <$> pr_global_calls pr)).
  set (mc := concat ((λ m, (λ cp, (cp, f, name m, mo)) <$> calls_position m)
                       <$> pr_methods pr)).
  set (c4 := if mc is [] then c3 else add_calls_batch c3 mc).
  assert (c1 = add_methods_batch c ((λ m, (m, f, mo)) <$> pr_methods pr))
    as Hc1 by (unfold c1; by destruct (pr_methods pr)).
  assert (c2 = add_module_vars_batch c1
                 ((λ kv, (kv.2, f)) <$> pr_module_vars pr))
    as Hc2 by (unfold c2; by destruct (pr_module_vars pr)).
  assert (c3 = add_calls_batch c2
                 ((λ cp, (cp, f, u "GlobalModuleText", mo))
                    <$> pr_global_calls pr))
    as Hc3 by (unfold c3; by destruct (pr_global_calls pr)).
  assert (c4 = add_calls_batch c3 mc)
    as Hc4 by (unfold c4; by destruct mc).
  clearbody c1 c2 c3 c4. subst c4 c3 c2 c1.
  destruct (add_calls_batch_indexes
              (add_calls_batch
                 (add_module_vars_batch
                    (add_methods_batch c ((λ m, (m, f, mo)) <$> pr_methods pr))
                    ((λ kv, (kv.2, f)) <$> pr_module_vars pr))
                 ((λ cp, (cp, f, u "GlobalModuleText", mo))
                    <$> pr_global_calls pr)) mc)
    as (Hm4 & _ & _ & _ & Hv4 & Ho4).
  destruct (add_calls_batch_indexes
              (add_module_vars_batch
                 (add_methods_batch c ((λ m, (m, f, mo)) <$> pr_methods pr))
                 ((λ kv, (kv.2, f)) <$> pr_module_vars pr))
              ((λ cp, (cp, f, u "GlobalModuleText", mo))
                 <$> pr_global_calls pr))
    as (Hm3 & _ & _ & _ & Hv3 & Ho3).
  destruct (add_module_vars_batch_indexes
              (add_methods_batch c ((λ m, (m, f, mo)) <$> pr_methods pr))
              ((λ kv, (kv.2, f)) <$> pr_module_vars pr))
    as (Hm2 & _ & _ & _ & Hc2 & Ho2).
  destruct (add_methods_batch_calls c
              ((λ m, (m, f, mo)) <$> pr_methods pr))
    as (Hc1 & Hv1 & Ho1).
  split; [|split; [|split]].
  - rewrite Hm4, Hm3, Hm2, add_methods_batch_methods.
    by rewrite <- list_fmap_compose.
  - intros k. rewrite Hv4, Hv3, module_vars_add_module_vars_batch, Hv1.
    f_equal. case_decide as Hk.
    + subst k. rewrite filter_id.
      * by rewrite <- list_fmap_compose.
      * apply Forall_forall. by intros ? (? & -> & _)%list_elem_of_fmap.
    + by rewrite filter_vars_other_file.
  - intros k. rewrite !find_calls_add_calls_batch.
    unfold find_calls at 1. rewrite Hc2, Hc1. fold (find_calls c k).
    rewrite <- app_assoc. f_equal.
    unfold parsed_calls. rewrite fmap_app, filter_app. by subst mc.
  - by rewrite Ho4, Ho3, Ho2, Ho1.
Qed.

(** The three ways [_parse_file_local] ends. *)
Lemma _parse_file_local_spec fs sv f :
  _parse_file_local fs sv f
  = match fresh_parse fs (repository_root_path sv) f with
    | Some (source, pr) =>
      if bool_decide (fst <$> _document_symbols_cache sv !! f
                      = Some (md5 source))
      then sv
      else
        let abs_path := path_join (repository_root_path sv) f in
        let mo := _get_module_for_path abs_path (repository_root_path sv) in
        _convert_single_file_to_document_symbols
          (set_local_cache sv (insert_parse_result (_local_cache sv) f mo pr))
          f abs_path source (md5 source) (pr_methods pr) mo
    | None => sv
    end.
Proof.
  unfold _parse_file_local, fresh_parse.
  destruct (fs _) as [content|]; [|done]. cbn zeta.
  destruct (truthy (strip (normalize_newlines content))); simpl; [done|].
  by case_bool_decide.
Qed.

(** Re-indexing a changed file through [_parse_file_local] alone keeps
    every entry the cache held, those of the file's earlier parse
    included, and appends the new ones. *)
Lemma _parse_file_local_appends fs sv f source pr :
  fresh_parse fs (repository_root_path sv) f = Some (source, pr) →
  fst <$> _document_symbols_cache sv !! f ≠ Some (md5 source) →
  methods (_local_cache (_parse_file_local fs sv f))
  = methods (_local_cache sv)
    ++ (entry_of f (_get_module_for_path
                      (path_join (repository_root_path sv) f)
                      (repository_root_path sv))
          <$> pr_methods pr).
Proof.
  intros Hf Hh. rewrite _parse_file_local_spec, Hf.
  rewrite bool_decide_eq_false_2 by done. simpl.
  apply insert_parse_result_spec.
Qed.

Lemma filter_fmap_entry_of_eq f mo (ms : list BSLMethod) :
  filter (λ e, filename e = f) (entry_of f mo <$> ms) = entry_of f mo <$> ms.
Proof.
  apply filter_id, Forall_forall. by intros ? (? & -> & _)%list_elem_of_fmap.
Qed.

Lemma filter_fmap_entry_of_ne f mo (ms : list BSLMethod) :
  filter (λ e, filename e ≠ f) (entry_of f mo <$> ms) = [].
Proof.
  induction ms as [|m ms IH]; [done|].
  rewrite fmap_cons, filter_cons. simpl. by rewrite decide_False by tauto.
Qed.

Lemma filter_filter_neg {A} (P : A → Prop) `{!∀ x, Decision (P x)}
    (l : list A) :
  filter P (filter (λ x, ¬ P x) l) = [].
Proof.
  induction l as [|x l IH]; [done|]. rewrite (filter_cons (λ x, ¬ P x)).
  case_decide; [|done]. rewrite filter_cons. by rewrite decide_False.
Qed.

Lemma filter_none {A} (P : A → Prop) `{!∀ x, Decision (P x)} (l : list A) :
  Forall (λ x, ¬ P x) l → filter P l = [].
Proof.
  induction 1 as [|x l Hx _ IH]; [done|].
  by rewrite filter_cons, decide_False.
Qed.

Lemma parsed_calls_owner f mo pr ci :
  ci ∈ call_info_of <$> parsed_calls f mo pr → ci_filename ci = f.
Proof.
  intros (x & -> & Hx)%list_elem_of_fmap. unfold parsed_calls in Hx.
  apply elem_of_app in Hx as [Hx|Hx].
  - by apply list_elem_of_fmap in Hx as (cp & -> & _).
  - apply list_elem_of_In, in_concat in Hx as (l & Hl & Hx).
    apply list_elem_of_In, list_elem_of_fmap in Hl as (m & -> & _).
    by apply list_elem_of_In, list_elem_of_fmap in Hx as (cp & -> & _).
Qed.

(** Removing a file's data and inserting a parse result for it leaves
    the cache with exactly that result for the file and with the data of
    the other files untouched. *)
Lemma remove_then_insert c f mo pr :
  let c' := insert_parse_result (remove_file_data c f) f mo pr in
  filter (λ e, filename e = f) (methods c') = entry_of f mo <$> pr_methods pr
  ∧ filter (λ e, filename e ≠ f) (methods c')
    = filter (λ e, filename e ≠ f) (methods c)
  ∧ default [] (module_vars c' !! f) = snd <$> pr_module_vars pr
  ∧ (∀ k, filter (λ ci, ci_filename ci = f) (find_calls c' k)
          = filter (λ ci, ci_call ci = k)
                   (call_info_of <$> parsed_calls f mo pr))
  ∧ (∀ k, keep f (find_calls c' k) = keep f (find_calls c k))
  ∧ filter (λ mo, mo_filename mo = f) (modules c') = [].
Proof.
  intros c'.
  pose proof (remove_file_data_fields c f) as (Hrm & Hrv & Hro).
  pose proof (find_calls_remove c f) as Hrc.
  pose proof (insert_parse_result_spec (remove_file_data c f) f mo pr)
    as (Him & Hiv & Hic & Hio).
  fold c' in Him, Hiv, Hic, Hio.
  split; [|split; [|split; [|split; [|split]]]].
  - rewrite Him, Hrm, filter_app, filter_fmap_entry_of_eq.
    by rewrite (filter_filter_neg (λ e, filename e = f)).
  - rewrite Him, Hrm, filter_app, filter_fmap_entry_of_ne, app_nil_r.
    by apply list_filter_filter_l.
  - rewrite Hiv, Hrv, lookup_delete_eq. by rewrite decide_True.
  - intros k. rewrite Hic, Hrc, filter_app. unfold keep.
    rewrite (filter_filter_neg (λ ci, ci_filename ci = f)). simpl.
    apply filter_id, Forall_forall. intros ci [_ Hci]%list_elem_of_filter.
    by eapply parsed_calls_owner.
  - intros k. rewrite Hic, Hrc. unfold keep at 1. rewrite filter_app.
    fold (keep f (keep f (find_calls c k))). rewrite keep_keep.
    assert (filter (λ ci, ci_filename ci ≠ f)
                   (filter (λ ci, ci_call ci = k)
                           (call_info_of <$> parsed_calls f mo pr)) = [])
      as ->; [|by rewrite app_nil_r].
    apply filter_none, Forall_forall.
    intros ci [_ Hci]%list_elem_of_filter Hne.
    by apply parsed_calls_owner in Hci.
  - rewrite Hio, Hro. apply (filter_filter_neg (λ mo, mo_filename mo = f)).
Qed.

Lemma add_module_vars_batch_other c (l : list (BSLModuleVar * str)) (g : str) :
  Forall (λ x, x.2 ≠ g) l →
  module_vars (add_module_vars_batch c l) !! g = module_vars c !! g.
Proof.
  unfold add_module_vars_batch. intros Hl. revert c.
  induction Hl as [|[v f] l Hf _ IH]; intros c; simpl; [done|].
  rewrite IH. unfold add_module_var. simpl.
  rewrite lookup_dict_append. by rewrite decide_False.
Qed.

(** What removing a file's data and inserting a parse result for it
    leaves of the other files' module variables and of the module
    records. *)
Lemma remove_then_insert_others c (f mo : str) pr :
  let c' := insert_parse_result (remove_file_data c f) f mo pr in
  (∀ g, g ≠ f → module_vars c' !! g = module_vars c !! g)
  ∧ modules c' = filter (λ mo, mo_filename mo ≠ f) (modules c).
Proof.
  intros c'. split.
  - intros g Hg. unfold c', insert_parse_result.
    set (c0 := remove_file_data c f).
    set (c1 := if pr_methods pr is [] then c0
               else add_methods_batch c0
                      ((λ m, (m, f, mo)) <$> pr_methods pr)).
    set (c2 := if pr_module_vars pr is [] then c1
               else add_module_vars_batch c1
                      ((λ kv, (kv.2, f)) <$> pr_module_vars pr)).
    set (c3 := if pr_global_calls pr is [] then c2
               else add_calls_batch c2
                      ((λ cp, (cp, f, u "GlobalModuleText", mo))
                         <$> pr_global_calls pr)).
    set (mc := concat ((λ m, (λ cp, (cp, f, name m, mo)) <$> calls_position m)
                         <$> pr_methods pr)).
    assert (module_vars (if mc is [] then c3 else add_calls_batch c3 mc)
            = module_vars c3) as ->.
    { destruct mc as [|x mc']; [done|].
      by destruct (add_calls_batch_indexes c3 (x :: mc'))
        as (_ & _ & _ & _ & -> & _). }
    assert (module_vars c3 = module_vars c2) as ->.
    { unfold c3. destruct (pr_global_calls pr) as [|cp0 l]; [done|].
      by destruct (add_calls_batch_indexes c2
                     ((λ cp, (cp, f, u "GlobalModuleText", mo))
                        <$> cp0 :: l))
        as (_ & _ & _ & _ & -> & _). }
    assert (module_vars c2 !! g = module_vars c1 !! g) as ->.
    { unfold c2. destruct (pr_module_vars pr) as [|kv l]; [done|].
      apply add_module_vars_batch_other, Forall_fmap, Forall_forall.
      by intros x _. }
    assert (module_vars c1 = module_vars c0) as ->.
    { unfold c1. destruct (pr_methods pr) as [|m l]; [done|].
      by destruct (add_methods_batch_calls c0
                     ((λ m, (m, f, mo)) <$> m :: l)) as (_ & -> & _). }
    unfold c0. destruct (remove_file_data_fields c f) as (_ & -> & _).
    by rewrite lookup_delete_ne.
  - destruct (insert_parse_result_spec (remove_file_data c f) f mo pr)
      as (_ & _ & _ & Hio).
    unfold c'. rewrite Hio.
    by destruct (remove_file_data_fields c f) as (_ & _ & ->).
Qed.

Lemma _parse_file_local_frame fs sv f :
  let sv' := _parse_file_local fs sv f in
  repository_root_path sv' = repository_root_path sv
  ∧ (∀ g, g ≠ f →
       _document_symbols_cache sv' !! g = _document_symbols_cache sv !! g
       ∧ _raw_document_symbols_cache sv' !! g
         = _raw_document_symbols_cache sv !! g)
  ∧ _file_content_cache sv' = _file_content_cache sv
  ∧ _converted_files sv' = _converted_files sv.
Proof.
  intros sv'. unfold sv'. rewrite _parse_file_local_spec.
  destruct (fresh_parse _ _ _) as [[source pr]|]; [|done].
  case_bool_decide; [done|]. cbn.
  split; [done|]. split; [|done]. intros g Hg.
  by rewrite !lookup_insert_ne.
Qed.

(** X16. Re-indexing through [_invalidate_file_cache] replaces the data of
    the file: afterwards the cache holds for it exactly what the new
    parse produced (nothing, when the file is gone or blank), and the
    projection has the new symbols under the new hash.  Everything that
    belongs to another file is as before: its methods, its module
    variables, its call records, its module records, and its entries in
    the projection caches, the content cache and the set of converted
    files. *)
Lemma _invalidate_file_cache_replaces fs sv f :
  let sv' := _invalidate_file_cache fs sv f in
  let c := _local_cache sv in
  let c' := _local_cache sv' in
  let root := repository_root_path sv in
  let abs_path := path_join root f in
  let mo := _get_module_for_path abs_path root in
  let pr := match fresh_parse fs root f with
            | Some (_, pr) => pr
            | None => no_result
            end in
  filter (λ e, filename e = f) (methods c') = entry_of f mo <$> pr_methods pr
  ∧ filter (λ e, filename e ≠ f) (methods c')
    = filter (λ e, filename e ≠ f) (methods c)
  ∧ default [] (module_vars c' !! f) = snd <$> pr_module_vars pr
  ∧ (∀ g, g ≠ f → module_vars c' !! g = module_vars c !! g)
  ∧ (∀ k, filter (λ ci, ci_filename ci = f) (find_calls c' k)
          = filter (λ ci, ci_call ci = k)
                   (call_info_of <$> parsed_calls f mo pr))
  ∧ (∀ k, keep f (find_calls c' k) = keep f (find_calls c k))
  ∧ modules c' = filter (λ mo, mo_filename mo ≠ f) (modules c)
  ∧ filter (λ mo, mo_filename mo = f) (modules c') = []
  ∧ _document_symbols_cache sv' !! f
    = match fresh_parse fs root f with
      | Some (source, pr) =>
        Some (md5 source, symbol_of_method f abs_path source <$> pr_methods pr)
      | None => None
      end
  ∧ (∀ g, g ≠ f →
       _document_symbols_cache sv' !! g = _document_symbols_cache sv !! g
       ∧ _raw_document_symbols_cache sv' !! g
         = _raw_document_symbols_cache sv !! g
       ∧ _file_content_cache sv' !! g = _file_content_cache sv !! g
       ∧ (g ∈ _converted_files sv' ↔ g ∈ _converted_files sv))
  ∧ repository_root_path sv' = root.
Proof.
  intros sv' c c' root abs_path mo pr.
  assert (c' = insert_parse_result (remove_file_data c f) f mo pr
          ∧ _document_symbols_cache sv' !! f
            = match fresh_parse fs root f with
              | Some (source, pr) =>
                Some (md5 source,
                      symbol_of_method f abs_path source <$> pr_methods pr)
              | None => None
              end) as [-> ->].
  { unfold c', sv', pr, _invalidate_file_cache.
    rewrite _parse_file_local_spec. cbn [repository_root_path].
    fold root. destruct (fresh_parse fs root f) as [[source pr0]|].
    - cbn [_document_symbols_cache]. rewrite lookup_delete_eq.
      rewrite bool_decide_eq_false_2 by done. cbn.
      by rewrite lookup_insert_eq.
    - cbn. by rewrite lookup_delete_eq. }
  pose proof (remove_then_insert c f mo pr) as (? & ? & ? & ? & ? & ?).
  pose proof (remove_then_insert_others c f mo pr) as (? & ?).
  repeat (split; [done|]).
  unfold sv', _invalidate_file_cache.
  match goal with
  | |- context [_parse_file_local fs ?s f] =>
    pose proof (_parse_file_local_frame fs s f) as (Hr & Hd & Hc & Hv)
  end.
  cbn zeta in Hr, Hd, Hc, Hv. split; [|by rewrite Hr].
  intros g Hg. destruct (Hd g Hg) as [-> ->]. rewrite Hc, Hv. cbn.
  rewrite !lookup_delete_ne by done. repeat split; try done.
  - intros [? _]%elem_of_difference. done.
  - intros ?. apply elem_of_difference. split; [done|].
    by intros ?%elem_of_singleton.
Qed.

End IndexerFacts.

(** ** Claims about the parser *)

#[local] Existing Instance Sample.runtime.

(** C4. Evaluation of the parser on declarations that are indented.
    The opening line of [Б] is indented, so the scan for the end of [А]
    does not count it, and the closing keyword of [Б] is taken as the
    end of [А]: [А], whose own closing keyword is missing, is returned
    with end line 2.  Without the indentation the same text yields only
    [Б].  For a declaration nested in another one, the outer method ends
    on the inner closing keyword (line 2) instead of its own (line 3). *)
Theorem method_end_with_indented_declarations :
  Sample.spans Sample.indented_pair = [(u "А", 0, 2); (u "Б", 1, 2)]
  ∧ Sample.spans Sample.flush_pair = [(u "Б", 1, 2)]
  ∧ Sample.spans Sample.nested_pair = [(u "А", 0, 2); (u "Б", 1, 2)].
Proof. by vm_compute. Qed.

(** C10. The export flag of a module variable is a case-sensitive test
    of the matched statement for the two spellings [Экспорт] and
    [экспорт], although the statement is matched without regard to
    case: [Перем X ЭКСПОРТ;] is matched in full and recorded as not
    exported.  The export flag of a method is the case-insensitive
    whole-word search of its declaration line. *)
Theorem module_var_export_is_case_sensitive :
  (∀ (R : PyRuntime) (source k : str) (v : BSLModuleVar),
     (k, v) ∈ pr_module_vars (parse source) →
     ∃ mt, mt ∈ finditer MODULE_VAR_PATTERN source
           ∧ k = default [] (group 1 source mt)
           ∧ v_is_export v
             = contains (u "Экспорт") (group0 source mt)
               || contains (u "экспорт") (group0 source mt))
  ∧ group0 Sample.upper_case_var
      <$> finditer MODULE_VAR_PATTERN Sample.upper_case_var
    = [Sample.upper_case_var]
  ∧ (λ kv, (kv.1, v_is_export kv.2))
      <$> pr_module_vars (parse Sample.upper_case_var)
    = [(u "X", false)]
  ∧ (∀ (R : PyRuntime) (source : str) (m : BSLMethod),
       m ∈ pr_methods (parse source) →
       is_export m
       = bool_decide
           (is_Some (search EXPORT_PATTERN
                       (default [] (split NL source !! line m)))))
  ∧ is_export <$> pr_methods (parse Sample.upper_case_method) = [true].
Proof.
  split.
  { intros R source k v Hkv. unfold parse in Hkv. simpl in Hkv.
    apply parse_module_vars_origin in Hkv as (mt & Hmt & -> & ->).
    by exists mt. }
  split; [by vm_compute|]. split; [by vm_compute|]. split; [|by vm_compute].
  intros R source m (mt & is_proc & m0 & _ & Hp & ->)%parse_method_origin.
  unfold _parse_method_from_match in Hp.
  destruct (_find_method_end _ _ _) as [e|]; [|done].
  by injection Hp as <-.
Qed.

(** ** Claims about re-indexing *)

(** C1. Evaluation of the two re-indexing paths on a file whose content
    changed after it was indexed.  The bulk path
    ([_index_files_with_local_parser], which runs [_parse_file_local])
    appends the new entries to the cache and keeps the entries of the
    earlier parse; [_invalidate_file_cache] removes them first.  The
    projection holds the new parse only in both cases. *)
Theorem reindex_changed_file_keeps_old_entries :
  Sample.owners Sample.indexed_once = [(u "Старая", Sample.a_bsl)]
  ∧ Sample.owners
      (_index_files_with_local_parser (Sample.fs_with Sample.new_text)
         Sample.indexed_once [Sample.a_bsl])
    = [(u "Старая", Sample.a_bsl); (u "Новая", Sample.a_bsl)]
  ∧ Sample.projected
      (_index_files_with_local_parser (Sample.fs_with Sample.new_text)
         Sample.indexed_once [Sample.a_bsl]) Sample.a_bsl
    = Some [u "Новая"]
  ∧ Sample.owners
      (_invalidate_file_cache (Sample.fs_with Sample.new_text)
         Sample.indexed_once Sample.a_bsl)
    = [(u "Новая", Sample.a_bsl)].
Proof. by vm_compute. Qed.

(** ** Instances of the conditional statements *)

Lemma remove_file_data_spec_witness :
  remove_file_data
    (add_method BSLCache_init Sample.a_method (u "b.bsl") (u "М"))
    Sample.a_bsl
  = add_method BSLCache_init Sample.a_method (u "b.bsl") (u "М").
Proof.
  apply (remove_file_data_spec
           (add_method BSLCache_init Sample.a_method (u "b.bsl") (u "М"))
           Sample.a_bsl).
  - apply add_method_consistent. by repeat split.
  - intros k l. cbn. by rewrite lookup_empty.
  - split; [|split; [|split]].
    + intros e. cbn. intros ->%list_elem_of_singleton. by vm_compute.
    + done.
    + intros k l ci. cbn. by rewrite lookup_empty.
    + intros mo. cbn. by intros ?%elem_of_nil.
Defined.

Lemma find_methods_unknown_keys_witness :
  ∃ r, find_methods
         (add_method BSLCache_init Sample.a_method (u "b.bsl") (u "М"))
         (Some Sample.misspelled_query) = Some r
       ∧ r ≡ₚ methods
               (add_method BSLCache_init Sample.a_method (u "b.bsl") (u "М")).
Proof.
  apply find_methods_unknown_keys; by vm_compute.
Defined.


(** * Further properties of the parser *)

Section RegexFacts.
Context `{PyRuntime}.

Lemma try_down_Some st k lo n res :
  try_down st k lo n = Some res →
  ∃ j, j ≤ n ∧ k (advance st (lo + j)) = Some res.
Proof.
  induction n as [|n IH]; simpl.
  - destruct (k (advance st (lo + 0))) eqn:Hk; [|done].
    intros [= <-]. exists 0. by split.
  - destruct (k (advance st (lo + S n))) eqn:Hk.
    + intros [= <-]. exists (S n). by split.
    + intros (j & ? & ?)%IH. exists j. split; [lia|done].
Qed.

Lemma count_while_length cls (s : str) : count_while cls s ≤ length s.
Proof.
  induction s as [|c s IH]; simpl; [done|]. destruct (cls c); simpl; lia.
Qed.

Lemma count_while_drop_bound cls (s : str) p :
  0 < count_while cls (drop p s) → p + count_while cls (drop p s) ≤ length s.
Proof.
  intros Hpos. pose proof (count_while_length cls (drop p s)) as Hl.
  rewrite length_drop in Hl. lia.
Qed.

Lemma search_from_Some text r fuel p mt :
  search_from text r fuel p = Some mt →
  ∃ q, p ≤ q ≤ p + fuel ∧ match_at text r q = Some mt.
Proof.
  revert p. induction fuel as [|fuel IH]; intros p; simpl.
  - destruct (match_at text r p) eqn:Hm; [|done].
    intros [= <-]. exists p. split; [lia|done].
  - destruct (match_at text r p) eqn:Hm.
    + intros [= <-]. exists p. split; [lia|done].
    + intros (q & ? & ?)%IH. exists q. split; [lia|done].
Qed.

Lemma finditer_from_elem text r fuel p mt :
  mt ∈ finditer_from text r fuel p →
  ∃ q, q ≤ length text ∧ match_at text r q = Some mt.
Proof.
  revert p. induction fuel as [|fuel IH]; intros p; simpl.
  - by intros ?%elem_of_nil.
  - case_decide; [|by intros ?%elem_of_nil].
    destruct (search_from text r (length text - p) p) as [mt0|] eqn:Hs;
      [|by intros ?%elem_of_nil].
    intros [->|Hin]%elem_of_cons; [|by eapply IH].
    apply search_from_Some in Hs as (q & ? & ?). exists q. split; [lia|done].
Qed.

Lemma finditer_elem text r mt :
  mt ∈ finditer r text →
  ∃ q, q ≤ length text ∧ match_at text r q = Some mt.
Proof. apply finditer_from_elem. Qed.

(** A match of [CALL_PATTERN]: the first group starts where the match
    starts and is a non-empty stretch of the text. *)
Lemma call_pattern_match text q mt :
  match_at text CALL_PATTERN q = Some mt →
  m_start mt = q
  ∧ ∃ e, assoc 1 (m_groups mt) = Some (q, e) ∧ q < e ≤ length text.
Proof.
  unfold match_at, CALL_PATTERN. simpl.
  destruct (at_wordb text q); [|done]. simpl.
  destruct (count_while name_char (drop q text)) as [|n] eqn:Hc; [done|].
  destruct (try_down _ _ 1 n) as [res|] eqn:Ht; [|done].
  simpl. intros [= <-]. split; [done|].
  apply try_down_Some in Ht as (j & Hj & Ht). simpl in Ht.
  apply try_down_Some in Ht as (j2 & _ & Ht). simpl in Ht.
  match type of Ht with
  | (if ?b then _ else _) = _ => destruct b; [|done]
  end.
  injection Ht as <-. simpl.
  exists (q + S j). split; [done|].
  pose proof (count_while_drop_bound name_char text q) as Hb.
  rewrite Hc in Hb. lia.
Qed.

End RegexFacts.

Section ParserProperties.
Context `{PyRuntime}.

Lemma elem_of_concat_imap {A B} (f : nat → A → list B) (l : list A) x :
  x ∈ concat (imap f l) ↔ ∃ i y, l !! i = Some y ∧ x ∈ f i y.
Proof.
  revert f. induction l as [|a l IH]; intros f.
  - simpl. split; [by intros ?%elem_of_nil|by intros (? & ? & ? & _)].
  - rewrite imap_cons. simpl. rewrite elem_of_app, IH. split.
    + intros [Hx|(i & y & Hl & Hx)]; [by exists 0, a|by exists (S i), y].
    + intros ([|i] & y & Hl & Hx).
      * left. simpl in Hl. by injection Hl as <-.
      * right. by exists i, y.
Qed.

Lemma line_calls_elem skip line_num line_text cp :
  cp ∈ line_calls skip line_num line_text →
  cp_line cp = line_num
  ∧ is_keyword (cp_call cp) = false
  ∧ skip ≠ Some (cp_call cp)
  ∧ cp_call cp ≠ []
  ∧ slice (cp_character cp) (cp_character cp + length (cp_call cp)) line_text
    = cp_call cp.
Proof.
  unfold line_calls. intros (mt & Hmt & Hcp)%list_elem_of_omap.
  apply finditer_elem in Hmt as (q & _ & Hmt).
  apply call_pattern_match in Hmt as (Hq & e & He & Hlt & Hle).
  unfold group in Hcp. rewrite He in Hcp. simpl in Hcp.
  destruct (is_keyword (slice q e line_text)) eqn:Hk; [done|].
  case_bool_decide as Hs; [done|]. injection Hcp as <-. simpl.
  assert (length (slice q e line_text) = e - q) as Hlen.
  { unfold slice. rewrite length_take, length_drop. lia. }
  split; [done|]. split; [done|]. split; [done|]. split.
  - intros Hnil. rewrite Hnil in Hlen. simpl in Hlen. lia.
  - rewrite Hlen, Hq. by replace (q + (e - q)) with e by lia.
Qed.

(** X1. The calls recorded for a method lie on the lines of the method, are
    not keywords, are not calls of the method itself, and their
    character offset is where the callee name stands in that line. *)
Theorem method_calls_located source m cp :
  m ∈ pr_methods (parse source) → cp ∈ calls_position m →
  in_range m (cp_line cp)
  ∧ is_keyword (cp_call cp) = false
  ∧ cp_call cp ≠ name m
  ∧ cp_call cp ≠ []
  ∧ ∃ line_text,
      split NL source !! cp_line cp = Some line_text
      ∧ slice (cp_character cp) (cp_character cp + length (cp_call cp))
              line_text = cp_call cp.
Proof.
  intros (mt & is_proc & m0 & _ & _ & ->)%parse_method_origin. simpl.
  unfold _parse_method_calls.
  intros (off & line_text & Hl & Hcp)%elem_of_concat_imap.
  apply lookup_take_Some in Hl as [Hl Hoff]. rewrite lookup_drop in Hl.
  apply line_calls_elem in Hcp as (Hline & Hk & Hs & Hne & Hsl).
  unfold in_range. simpl. rewrite Hline.
  split; [lia|]. split; [done|]. split; [congruence|]. split; [done|].
  by exists line_text.
Qed.

Lemma elem_of_method_ranges ms n :
  n ∈ method_ranges ms ↔ ∃ m, m ∈ ms ∧ in_range m n.
Proof.
  unfold method_ranges, in_range. rewrite elem_of_union_list. split.
  - intros (X & (m & -> & Hm)%list_elem_of_fmap & Hn).
    apply elem_of_list_to_set, elem_of_seq in Hn.
    exists m. split; [done|lia].
  - intros (m & Hm & Hn).
    exists (list_to_set (seq (line m) (endline m + 1 - line m))).
    split; [apply list_elem_of_fmap; by exists m|].
    apply elem_of_list_to_set, elem_of_seq. lia.
Qed.

(** X2. The module-level calls lie on lines of the text outside the body
    range of every returned method, are not keywords, and their
    character offset is where the callee name stands in that line. *)
Theorem global_calls_located source cp :
  cp ∈ pr_global_calls (parse source) →
  (∀ m, m ∈ pr_methods (parse source) → ¬ in_range m (cp_line cp))
  ∧ is_keyword (cp_call cp) = false
  ∧ cp_call cp ≠ []
  ∧ ∃ line_text,
      split NL source !! cp_line cp = Some line_text
      ∧ slice (cp_character cp) (cp_character cp + length (cp_call cp))
              line_text = cp_call cp.
Proof.
  unfold parse. simpl. unfold _parse_global_calls.
  intros (i & line_text & Hl & Hcp)%elem_of_concat_imap.
  case_decide as Hr; [by apply elem_of_nil in Hcp|].
  apply line_calls_elem in Hcp as (Hline & Hk & _ & Hne & Hsl).
  rewrite Hline. split.
  - intros m (m0 & -> & Hm0)%list_elem_of_fmap Hin. apply Hr.
    apply elem_of_method_ranges. by exists m0.
  - split; [done|]. split; [done|]. by exists line_text.
Qed.

Lemma insert_by_line_Forall (P : BSLMethod → Prop) m l :
  P m → Forall P l → Forall P (insert_by_line m l).
Proof.
  intros Hm Hl. induction Hl as [|m' l Hm' Hl IH]; simpl.
  - by constructor.
  - case_decide; by repeat constructor.
Qed.

Lemma insert_by_line_sorted m l :
  sorted_lines (line <$> l) → sorted_lines (line <$> insert_by_line m l).
Proof.
  induction l as [|m' l IH]; simpl; [by split|].
  intros [Hall Hs]. case_decide as Hle.
  - rewrite !fmap_cons. simpl. split; [|by split].
    constructor; [done|]. eapply Forall_impl; [done|]. simpl. lia.
  - rewrite fmap_cons. simpl. split; [|by apply IH].
    rewrite Forall_fmap. apply insert_by_line_Forall.
    + simpl. lia.
    + by rewrite Forall_fmap in Hall.
Qed.

Lemma sort_by_line_sorted l : sorted_lines (line <$> sort_by_line l).
Proof.
  induction l as [|m l IH]; simpl; [done|]. by apply insert_by_line_sorted.
Qed.

Lemma sorted_lines_lookup l i j x y :
  sorted_lines l → i < j → l !! i = Some x → l !! j = Some y → x ≤ y.
Proof.
  revert i j. induction l as [|a l IH]; intros i j Hs Hij Hi Hj; [done|].
  destruct Hs as [Hall Hs]. destruct j as [|j]; [lia|]. simpl in Hj.
  destruct i as [|i].
  - simpl in Hi. injection Hi as <-.
    rewrite Forall_forall in Hall. apply Hall.
    by eapply list_elem_of_lookup_2.
  - simpl in Hi. apply (IH i j); [done|lia|done|done].
Qed.

(** X3. The methods of a parse result come in the order of their start
    lines. *)
Theorem parse_methods_sorted source i j mi mj :
  i < j →
  pr_methods (parse source) !! i = Some mi →
  pr_methods (parse source) !! j = Some mj →
  line mi ≤ line mj.
Proof.
  intros Hij Hi Hj.
  assert (sorted_lines (line <$> pr_methods (parse source))) as Hs.
  { unfold parse. simpl. rewrite <- list_fmap_compose.
    apply sort_by_line_sorted. }
  apply (sorted_lines_lookup _ i j _ _ Hs Hij).
  - by rewrite list_lookup_fmap, Hi.
  - by rewrite list_lookup_fmap, Hj.
Qed.

Lemma dict_set_keys {V} k (v : V) d :
  NoDup d.*1 → NoDup (dict_set k v d).*1
  ∧ ∀ k', k' ∈ (dict_set k v d).*1 ↔ k' = k ∨ k' ∈ d.*1.
Proof.
  induction d as [|[k0 v0] d IH]; simpl.
  - intros _. split; [apply NoDup_singleton|].
    intros k'. rewrite list_elem_of_singleton. split; [by left|].
    by intros [?|?%elem_of_nil].
  - intros [Hk0 Hd]%NoDup_cons. case_decide as Hk.
    + subst k0. simpl. split; [by apply NoDup_cons|].
      intros k'. rewrite elem_of_cons. tauto.
    + destruct (IH Hd) as [Hnd Hel]. simpl. split.
      * apply NoDup_cons. split; [|done]. rewrite Hel.
        intros [?|?]; [congruence|done].
      * intros k'. rewrite !elem_of_cons, Hel. tauto.
Qed.

Lemma dict_set_lookup {V} k (v : V) d k' v' :
  NoDup d.*1 →
  (k', v') ∈ dict_set k v d
  ↔ (k' = k ∧ v' = v) ∨ (k' ≠ k ∧ (k', v') ∈ d).
Proof.
  induction d as [|[k0 v0] d IH]; simpl.
  - intros _. rewrite list_elem_of_singleton. split.
    + intros [= -> ->]. by left.
    + intros [[-> ->]|[_ ?%elem_of_nil]]; done.
  - intros [Hk0 Hd]%NoDup_cons. case_decide as Hk.
    + subst k0. rewrite !elem_of_cons. split.
      * intros [[= -> ->]|Hin]; [by left|]. right. split; [|by right].
        intros ->. apply Hk0. apply list_elem_of_fmap. by exists (k, v').
      * intros [[-> ->]|[Hne [[= ? ?]|Hin]]]; [by left|done|by right].
    + rewrite !elem_of_cons, (IH Hd). split.
      * intros [[= -> ->]|[[-> ->]|[Hne Hin]]].
        -- right. split; [done|by left].
        -- by left.
        -- right. split; [done|by right].
      * intros [[-> ->]|[Hne [[= -> ->]|Hin]]].
        -- right. by left.
        -- by left.
        -- right. right. by split.
Qed.

Lemma foldl_dict_set_last {A V} (key : V → str) (F : A → V) (l : list A)
    (acc : list (str * V)) k v :
  NoDup acc.*1 →
  (k, v) ∈ foldl (λ d x, dict_set (key (F x)) (F x) d) acc l
  ↔ last (filter (λ w, key w = k) (F <$> l)) = Some v
    ∨ (filter (λ w, key w = k) (F <$> l) = [] ∧ (k, v) ∈ acc).
Proof.
  revert acc. induction l as [|x l IH]; intros acc Hacc; cbn [foldl].
  - rewrite fmap_nil, filter_nil. simpl. split; [by right|].
    by intros [?|[_ ?]].
  - rewrite IH by by apply dict_set_keys.
    rewrite fmap_cons, filter_cons, dict_set_lookup by done.
    case_decide as Hk.
    + destruct (filter (λ w, key w = k) (F <$> l)) as [|w ws] eqn:Hf.
      * simpl. split.
        -- intros [?|[_ [[_ ->]|[Hne _]]]]; [done|by left|done].
        -- intros [[= <-]|[? _]]; [|done]. right. split; [done|]. by left.
      * rewrite (last_cons (F x)). split.
        -- intros [Hl|[? _]]; [|done]. left. by rewrite Hl.
        -- intros [Hl|[? _]]; [|done]. left.
           destruct (last (w :: ws)) eqn:Hlast; [done|].
           by apply last_None in Hlast.
    + split.
      * intros [?|[? [[? _]|[_ ?]]]]; [by left|congruence|by right].
      * intros [?|[? ?]]; [by left|]. right. split; [done|]. right.
        split; [congruence|done].
Qed.

(** X4. The module variables of a parse result are keyed by name: every
    name occurs once, the variable stored under a key has that name,
    and it is the one built from the last declaration of that name in
    the text (a later declaration replaces the earlier one). *)
Theorem parse_module_vars_keys source :
  NoDup (pr_module_vars (parse source)).*1
  ∧ (∀ k v, (k, v) ∈ pr_module_vars (parse source) → v_name v = k)
  ∧ (∀ k v, (k, v) ∈ pr_module_vars (parse source)
            ↔ last (filter (λ w, v_name w = k)
                      (module_var_of_match source (split NL source)
                         <$> finditer MODULE_VAR_PATTERN source))
              = Some v).
Proof.
  assert (∀ mts acc,
            NoDup acc.*1 →
            NoDup (foldl (λ vars_dict mt,
                            let var := module_var_of_match source
                                         (split NL source) mt in
                            dict_set (v_name var) var vars_dict)
                         acc mts).*1) as Hgen.
  { induction mts as [|mt mts IH]; intros acc Hacc; simpl; [done|].
    apply IH. by apply dict_set_keys. }
  split; [|split].
  - unfold parse. simpl. unfold _parse_module_vars. apply Hgen. constructor.
  - intros k v Hkv. unfold parse in Hkv. simpl in Hkv.
    by apply parse_module_vars_origin in Hkv as (mt & _ & _ & ->).
  - intros k v. unfold parse. simpl. unfold _parse_module_vars. cbn zeta.
    rewrite (foldl_dict_set_last v_name
               (module_var_of_match source (split NL source))
               (finditer MODULE_VAR_PATTERN source) [] k v)
      by constructor.
    split; [|by left]. intros [?|[_ ?%elem_of_nil]]; done.
Qed.

Lemma find_end_loop_first_closing end_pattern pre l_end post i :
  Forall (λ l, raises_depth l = false ∧ lowers_depth end_pattern l = false)
         pre →
  lowers_depth end_pattern l_end = true →
  find_end_loop end_pattern (pre ++ l_end :: post) i 1
  = Some (i + length pre).
Proof.
  intros Hpre Hend. revert i.
  induction Hpre as [|l pre [Hr Hl] _ IH]; intros i; simpl.
  - unfold lowers_depth in Hend.
    destruct (search PROC_PATTERN l_end); [done|].
    destruct (search FUNC_PATTERN l_end); [done|].
    apply bool_decide_eq_true in Hend as [mt ->].
    f_equal. lia.
  - unfold raises_depth in Hr. unfold lowers_depth in Hl.
    destruct (search PROC_PATTERN l) as [mt|].
    { apply bool_decide_eq_false in Hr. rewrite decide_False by done.
      rewrite IH. f_equal. lia. }
    destruct (search FUNC_PATTERN l) as [mt|].
    { apply bool_decide_eq_false in Hr. rewrite decide_False by done.
      rewrite IH. f_equal. lia. }
    apply bool_decide_eq_false in Hl.
    destruct (search end_pattern l) as [mt|]; [by destruct Hl|].
    rewrite IH. f_equal. lia.
Qed.

(** X5. When no line between the declaration and line [e] raises or lowers
    the depth and line [e] carries the closing keyword, the method ends
    at [e]: the end is the first closing keyword of the method's kind. *)
Theorem _find_method_end_first_closing (source : str) (start_line : nat)
    (is_proc : bool) (e : nat) (l_end : str) :
  let end_pattern := if is_proc then PROC_END_PATTERN else FUNC_END_PATTERN in
  start_line < e →
  split NL source !! e = Some l_end →
  lowers_depth end_pattern l_end = true →
  (∀ j l, start_line < j < e → split NL source !! j = Some l →
          raises_depth l = false ∧ lowers_depth end_pattern l = false) →
  _find_method_end source start_line is_proc = Some e.
Proof.
  intros end_pattern Hlt He Hend Hpre. unfold _find_method_end.
  fold end_pattern.
  assert (drop (start_line + 1) (split NL source)
          = take (e - (start_line + 1)) (drop (start_line + 1) (split NL source))
            ++ l_end :: drop (S e) (split NL source)) as ->.
  { rewrite <- (take_drop (e - (start_line + 1))
                          (drop (start_line + 1) (split NL source))) at 1.
    f_equal. rewrite drop_drop.
    replace (start_line + 1 + (e - (start_line + 1))) with e by lia.
    by apply drop_S. }
  rewrite find_end_loop_first_closing; [|apply Forall_forall|done].
  - f_equal. rewrite length_take, length_drop.
    apply lookup_lt_Some in He. lia.
  - intros l (j & Hj)%list_elem_of_lookup_1.
    apply lookup_take_Some in Hj as [Hj Hlt']. rewrite lookup_drop in Hj.
    apply (Hpre (start_line + 1 + j)); [lia|done].
Qed.

Lemma split_parts_no_sep sep (t : str) : Forall (λ p, sep ∉ p) (split sep t).
Proof.
  induction t as [|c t IH]; simpl.
  - constructor; [apply not_elem_of_nil|constructor].
  - destruct (N.eqb_spec c sep) as [->|Hne].
    + constructor; [apply not_elem_of_nil|done].
    + destruct (split sep t) as [|q qs].
      * constructor; [|constructor].
        intros ?%list_elem_of_singleton. congruence.
      * apply Forall_cons in IH as [Hq Hqs]. constructor; [|done].
        intros [?|?]%elem_of_cons; [congruence|done].
Qed.

Lemma join_split sep (t : str) : join [sep] (split sep t) = t.
Proof.
  induction t as [|c t IH]; [done|]. simpl.
  destruct (N.eqb_spec c sep) as [->|Hne].
  - destruct (split sep t) as [|q qs] eqn:Hs; [by destruct t|].
    change (join [sep] ([] :: q :: qs)) with (sep :: join [sep] (q :: qs)).
    by rewrite IH.
  - destruct (split sep t) as [|q qs] eqn:Hs.
    + simpl in IH. by subst t.
    + destruct qs as [|q' qs']; simpl in *; by rewrite <- IH.
Qed.

(** X7. The symbol projected for a method of a parse of the same text
    spans the method's own lines, and its body is the text of exactly
    those lines. *)
Theorem symbol_of_parsed_method source fname abs_path m :
  m ∈ pr_methods (parse source) →
  let sy := symbol_of_method fname abs_path source m in
  let lines := split NL source in
  sy_start_line sy = line m
  ∧ sy_end_line sy = endline m
  ∧ sy_start_char sy ≤ length (default [] (lines !! line m))
  ∧ sy_end_char sy = length (default [] (lines !! endline m))
  ∧ split NL (sy_body sy)
    = take (endline m + 1 - line m) (drop (line m) lines)
  ∧ length (split NL (sy_body sy)) = endline m + 1 - line m.
Proof.
  intros Hm sy lines.
  destruct (parse_method_bounds source m Hm) as ([Hlt Hlen] & _).
  fold lines in Hlen.
  assert (clamp_end m lines = endline m) as Hc.
  { unfold clamp_end. rewrite decide_True by done. lia. }
  assert (sy_body sy
          = join [NL] (take (endline m + 1 - line m) (drop (line m) lines)))
    as Hbody.
  { unfold sy, symbol_of_method. cbn [sy_body]. unfold _extract_method_body.
    fold lines. rewrite Hc. rewrite decide_False by lia. done. }
  split; [done|]. split; [by unfold sy, symbol_of_method; cbn; fold lines; rewrite Hc|].
  split.
  { unfold sy, symbol_of_method. cbn [sy_start_char]. fold lines.
    destruct (lines !! line m) as [l|]; simpl; [|lia].
    destruct (find (name m) l) as [i|] eqn:Hf; simpl; [|lia].
    clear -Hf. revert i Hf. induction l as [|c l IH]; intros i.
    - simpl. destruct (startswith (name m) []); [by intros [= <-]|done].
    - simpl. destruct (startswith (name m) (c :: l)); [intros [= <-]; lia|].
      destruct (find (name m) l) as [i'|]; [|done]. simpl.
      intros [= <-]. specialize (IH i' eq_refl). lia. }
  split; [by unfold sy, symbol_of_method; cbn; fold lines; rewrite Hc|].
  assert (split NL (sy_body sy)
          = take (endline m + 1 - line m) (drop (line m) lines)) as Hsplit.
  { rewrite Hbody. apply split_join.
    - intros Hnil. apply (f_equal length) in Hnil.
      rewrite length_take, length_drop in Hnil. simpl in Hnil. lia.
    - apply Forall_take, Forall_drop, split_parts_no_sep. }
  split; [done|]. rewrite Hsplit, length_take, length_drop. lia.
Qed.

Lemma ilit_prefix_app a b (t : str) :
  ilit_prefix (a ++ b) t = true → ilit_prefix a t = true.
Proof.
  revert t. induction a as [|x a IH]; intros t; [done|].
  destruct t as [|c t]; simpl; [done|].
  intros [Hc Ht]%andb_true_iff. rewrite Hc. simpl. by apply IH.
Qed.

(** The first group of a match of [CONTEXT_PATTERN] is nine characters
    long: the alternative [НаСервере] is tried first and succeeds
    wherever the longer [НаСервереБезКонтекста] would. *)
Lemma context_pattern_group line_text mt :
  search CONTEXT_PATTERN line_text = Some mt →
  ∃ a, assoc 1 (m_groups mt) = Some (a, a + 9).
Proof.
  unfold search. intros (q & _ & Hm)%search_from_Some.
  unfold match_at, CONTEXT_PATTERN in Hm. cbn [rx] in Hm.
  destruct (ilit_prefix (u "&") _); [|done]. cbn [advance pos groups] in Hm.
  destruct (ilit_prefix (u "НаСервере") _) eqn:H1.
  { simpl in Hm. injection Hm as <-. simpl. by eexists. }
  destruct (ilit_prefix (u "НаКлиенте") _) eqn:H2.
  { simpl in Hm. injection Hm as <-. simpl. by eexists. }
  destruct (ilit_prefix (u "НаСервереБезКонтекста") _) eqn:H3; [|done].
  change (u "НаСервереБезКонтекста")
    with (u "НаСервере" ++ u "БезКонтекста") in H3.
  apply ilit_prefix_app in H3. congruence.
Qed.

Lemma _extract_context_values line_text :
  (∀ t, length (lower t) ≤ 2 * length t) →
  _extract_context line_text = []
  ∨ _extract_context line_text = u "НаСервере"
  ∨ _extract_context line_text = u "НаКлиенте".
Proof.
  intros Hlen. unfold _extract_context.
  destruct (search CONTEXT_PATTERN line_text) as [mt|] eqn:Hs; [|by left].
  apply context_pattern_group in Hs as (a & Ha).
  unfold group. rewrite Ha. simpl.
  case_bool_decide; [right; by left|].
  case_bool_decide; [right; by right|].
  case_bool_decide as H3; [|by left]. exfalso.
  apply (f_equal length) in H3.
  pose proof (Hlen (slice a (a + 9) line_text)) as Hb.
  rewrite H3 in Hb.
  unfold slice in Hb. rewrite length_take in Hb.
  change (length (u "насерверебезконтекста")) with 21 in Hb. lia.
Qed.

(** X6. No method is ever tagged [НаСервереБезКонтекста]: the context of a
    returned method is empty, [НаСервере] or [НаКлиенте].  The text
    compared is nine characters long, so the third comparison would
    need [lower] to turn nine characters into twenty-one; the
    hypothesis is that [lower] at most doubles the length of a string,
    as [str.lower] does (U+0130 is the only character it maps to two). *)
Theorem parsed_context_values source m :
  (∀ t, length (lower t) ≤ 2 * length t) →
  m ∈ pr_methods (parse source) →
  context m = [] ∨ context m = u "НаСервере" ∨ context m = u "НаКлиенте".
Proof.
  intros Hlen (mt & is_proc & m0 & _ & Hp & ->)%parse_method_origin.
  unfold _parse_method_from_match in Hp.
  destruct (_find_method_end _ _ _) as [e|]; [|done].
  injection Hp as <-. simpl. by apply _extract_context_values.
Qed.

End ParserProperties.

(** * Further properties of the symbol cache *)

Section QueryFacts.
Context `{PyRuntime}.

Lemma omap_filter_bool {A B} (S : A → bool) (g : A → option B) (l : list A) :
  omap g (filter (λ x, S x = true) l)
  = omap (λ x, if S x then g x else None) l.
Proof.
  induction l as [|x l IH]; [done|]. rewrite filter_cons.
  destruct (S x) eqn:Hx.
  - rewrite decide_True by done. simpl. rewrite Hx.
    destruct (g x); [f_equal|]; apply IH.
  - rewrite decide_False by done. simpl. rewrite Hx. apply IH.
Qed.

Lemma omap_lookup_bind_from {A B} (h : A → option B) (pre l : list A) :
  omap (λ i, (pre ++ l) !! i ≫= h) (seq (length pre) (length l)) = omap h l.
Proof.
  revert pre. induction l as [|x l IH]; intros pre; [done|].
  specialize (IH (pre ++ [x])).
  rewrite length_app, Nat.add_1_r, <- app_assoc in IH.
  simpl. rewrite list_lookup_middle by done. simpl.
  destruct (h x); [f_equal|]; exact IH.
Qed.

Lemma omap_guard_filter {A} (b : A → bool) (l : list A) :
  omap (λ x, if b x then Some x else None) l = filter (λ x, b x = true) l.
Proof.
  induction l as [|x l IH]; [done|]. rewrite filter_cons.
  destruct (b x) eqn:Hx.
  - rewrite decide_True by done. simpl. rewrite Hx. f_equal. apply IH.
  - rewrite decide_False by done. simpl. rewrite Hx. apply IH.
Qed.

Lemma sel_lt ms P i : sel ms P i = true → i < length ms.
Proof.
  unfold sel. destruct (ms !! i) eqn:Hl; [|done].
  intros _. by eapply lookup_lt_Some.
Qed.

(** Collecting over a set that selects [P] gives the entries that
    satisfy [P] and the two method-level checks, each once. *)
Lemma collect_selects c q X P :
  selects (methods c) X P →
  collect c q X ≡ₚ filter (λ e, P e && passes q e = true) (methods c).
Proof.
  intros HX. unfold collect.
  assert (elements X
          ≡ₚ filter (λ i, sel (methods c) P i = true)
                    (seq 0 (length (methods c)))) as ->.
  { apply NoDup_Permutation.
    - apply NoDup_elements.
    - apply NoDup_filter, NoDup_seq.
    - intros i. rewrite elem_of_elements, list_elem_of_filter, elem_of_seq.
      rewrite (HX i). split; [|tauto].
      intros Hs. split; [done|]. apply sel_lt in Hs. lia. }
  rewrite omap_filter_bool.
  rewrite <- omap_guard_filter.
  rewrite <- (omap_lookup_bind_from _ [] (methods c)). simpl.
  apply reflexive_eq, list_omap_ext, Forall2_same_length_lookup.
  split; [done|]. intros i x y Hx Hy. assert (x = y) as -> by congruence.
  unfold sel. destruct (methods c !! y) as [e|]; simpl; [|done].
  by destruct (P e), (passes q e).
Qed.

Lemma selects_all ms : selects ms (set_seq 0 (length ms)) (λ _, true).
Proof.
  intros i. rewrite elem_of_set_seq. unfold sel. split.
  - intros [_ Hi]. by destruct (lookup_lt_is_Some_2 ms i Hi) as [e ->].
  - destruct (ms !! i) eqn:Hl; [|done]. intros _.
    apply lookup_lt_Some in Hl. lia.
Qed.

Lemma selects_ext ms X P Q :
  (∀ e, P e = Q e) → selects ms X P → selects ms X Q.
Proof.
  intros HPQ HX i. rewrite (HX i). unfold sel.
  destruct (ms !! i); [by rewrite HPQ|done].
Qed.

Lemma selects_inter ms X Y P Q :
  selects ms X P → selects ms Y Q → selects ms (X ∩ Y) (λ e, P e && Q e).
Proof.
  intros HX HY i. rewrite elem_of_intersection, (HX i), (HY i).
  unfold sel. destruct (ms !! i); [|by intuition].
  by rewrite andb_true_iff.
Qed.

Lemma selects_diff ms X Y P Q :
  selects ms X P → selects ms Y Q →
  selects ms (X ∖ Y) (λ e, P e && negb (Q e)).
Proof.
  intros HX HY i. rewrite elem_of_difference, (HX i), (HY i).
  unfold sel. destruct (ms !! i) as [e|]; [|intuition congruence].
  destruct (P e), (Q e); simpl; intuition congruence.
Qed.

Lemma selects_positions ms P :
  selects ms (list_to_set (positions P ms)) P.
Proof.
  intros i. rewrite elem_of_list_to_set, elem_of_positions. unfold sel.
  destruct (ms !! i) as [e|]; split; try done.
  - by intros (x & [= <-] & ?).
  - intros ?. by exists e.
  - by intros (x & ? & _).
Qed.

(** The positions an index criterion selects, for an index that is
    exact for the key [keyf] among the entries with [present]. *)
Lemma index_filter_selects (ms : list BSLMethodInfo)
    (index : gmap str (list nat)) (present : BSLMethodInfo → bool)
    (keyf : BSLMethodInfo → str) v X :
  (∀ k, index !! k
        = nonempty (positions (λ e, present e && bool_decide (keyf e = k)) ms)) →
  index_filter index v = Some X →
  selects ms X (λ e, key_matches (Some v) (present e) (keyf e)).
Proof.
  intros Hix. destruct v as [t|b|z| |[pattern_search|]]; simpl;
    try (intros [= <-]; rewrite Hix, default_nonempty;
         eapply selects_ext; [|apply selects_positions]; done).
  - intros [= <-] i. rewrite elem_of_union_list. unfold sel. split.
    + intros (Y & ([k l] & -> & Hkl)%list_elem_of_fmap & Hi).
      apply elem_of_map_to_list in Hkl. rewrite Hix in Hkl.
      apply nonempty_Some in Hkl as [-> _].
      destruct (pattern_search k) eqn:Hp; [|by apply elem_of_empty in Hi].
      apply elem_of_list_to_set, elem_of_positions in Hi
        as (e & -> & [Hpr ->%bool_decide_eq_true]%andb_true_iff).
      by rewrite Hpr, Hp.
    + destruct (ms !! i) as [e|] eqn:He; [|done].
      intros [Hpr Hp]%andb_true_iff.
      assert (i ∈ positions (λ e0, present e0 && bool_decide (keyf e0 = keyf e))
                            ms) as Hi.
      { apply elem_of_positions. exists e. split; [done|].
        by rewrite Hpr, bool_decide_eq_true_2. }
      exists (list_to_set
                (positions (λ e0, present e0 && bool_decide (keyf e0 = keyf e))
                           ms)).
      split; [|by apply elem_of_list_to_set].
      apply list_elem_of_fmap.
      exists (keyf e,
              positions (λ e0, present e0 && bool_decide (keyf e0 = keyf e)) ms).
      rewrite Hp. split; [done|].
      apply elem_of_map_to_list. rewrite Hix.
      destruct (positions _ ms); [by apply elem_of_nil in Hi|done].
  - done.
Qed.

Lemma filter_by_index_selects (ms : list BSLMethodInfo)
    (index : gmap str (list nat)) (present : BSLMethodInfo → bool)
    (keyf : BSLMethodInfo → str) criterion cand P :
  (∀ k, index !! k
        = nonempty (positions (λ e, present e && bool_decide (keyf e = k)) ms)) →
  oselects ms cand P →
  match criterion with
  | Some (QRegex None) => filter_by_index index criterion cand = None
  | _ =>
    ∃ cand', filter_by_index index criterion cand = Some cand'
             ∧ oselects ms cand'
                 (λ e, P e && key_matches criterion (present e) (keyf e))
  end.
Proof.
  intros Hix Hc. unfold filter_by_index.
  destruct criterion as [v|].
  - assert (∀ X, index_filter index v = Some X →
                 ∃ cand',
                   (X' ← Some X;
                    Some (Some (match cand with
                                | Some s => s ∩ X'
                                | None => X'
                                end))) = Some cand'
                   ∧ oselects ms cand'
                       (λ e, P e && key_matches (Some v) (present e) (keyf e)))
      as Hgen.
    { intros X HX. eapply index_filter_selects in HX; [|done].
      eexists. split; [done|]. destruct cand as [Y|]; simpl.
      - by apply selects_inter.
      - eapply selects_ext; [|done]. intros e. simpl in Hc. by rewrite Hc. }
    destruct v as [t|b|z| |[pattern_search|]]; try (by apply Hgen); done.
  - exists cand. split; [done|]. destruct cand as [Y|]; simpl in *.
    + eapply selects_ext; [|done]. intros e. by rewrite andb_true_r.
    + intros e. by rewrite Hc.
Qed.

Lemma filter_by_export_selects c q cand P :
  _method_export_index c = positions exported (methods c) →
  oselects (methods c) cand P →
  oselects (methods c) (filter_by_export c q cand)
           (λ e, P e && export_matches q e).
Proof.
  intros Hex Hc. unfold filter_by_export, export_matches.
  destruct (bool_decide (is_Some (q !! u "is_export"))
            || bool_decide (is_Some (q !! u "isExport"))).
  - rewrite Hex. pose proof (selects_positions (methods c) exported) as Hs.
    destruct (py_truthy _), cand as [X|]; simpl in *.
    + by apply selects_inter.
    + eapply selects_ext; [|done]. intros e. by rewrite Hc.
    + by apply selects_diff.
    + eapply selects_ext;
        [|apply (selects_diff _ _ _ (λ _, true) exported);
          [apply selects_all|done]].
      intros e. simpl. by rewrite Hc.
  - destruct cand as [X|]; simpl in *.
    + eapply selects_ext; [|done]. intros e. by rewrite andb_true_r.
    + intros e. by rewrite Hc.
Qed.

Lemma filter_by_index_cases (ms : list BSLMethodInfo)
    (index : gmap str (list nat)) (present : BSLMethodInfo → bool)
    (keyf : BSLMethodInfo → str) criterion cand P :
  (∀ k, index !! k
        = nonempty (positions (λ e, present e && bool_decide (keyf e = k)) ms)) →
  oselects ms cand P →
  (criterion = Some (QRegex None)
   ∧ filter_by_index index criterion cand = None)
  ∨ (criterion ≠ Some (QRegex None)
     ∧ ∃ cand', filter_by_index index criterion cand = Some cand'
         ∧ oselects ms cand'
             (λ e, P e && key_matches criterion (present e) (keyf e))).
Proof.
  intros Hix Hc.
  pose proof (filter_by_index_selects ms index present keyf criterion cand P
                Hix Hc) as Hs.
  destruct criterion as [[t|b|z| |[pattern_search|]]|];
    solve [by left | by right].
Qed.

Lemma filter_true {A} (P : A → bool) (l : list A) :
  (∀ x, P x = true) → filter (λ x, P x = true) l = l.
Proof.
  intros HP. induction l as [|x l IH]; [done|].
  rewrite filter_cons, decide_True by done. by f_equal.
Qed.

Lemma oselects_collect c q cand P :
  oselects (methods c) cand P →
  collect c q (default (set_seq 0 (length (methods c))) cand)
  ≡ₚ filter (λ e, P e && passes q e = true) (methods c).
Proof.
  intros Hc. destruct cand as [X|]; simpl in *.
  - by apply collect_selects.
  - apply collect_selects. eapply selects_ext; [|apply selects_all].
    intros e. by rewrite Hc.
Qed.

(** The methods [find_methods] returns for a query. *)
Lemma find_methods_char c q :
  consistent c →
  if query_raises q then find_methods c (Some q) = None
  else ∃ r, find_methods c (Some q) = Some r
            ∧ r ≡ₚ filter (λ e, query_matches q e = true) (methods c).
Proof.
  intros (Hn & Hm & Hx). simpl in *. unfold find_methods.
  destruct (decide (size q = 0)) as [Hz|Hz].
  { apply map_size_empty_inv in Hz as ->. unfold query_raises.
    rewrite !lookup_empty. exists (methods c). split; [done|].
    by rewrite filter_true. }
  destruct (filter_by_index_cases (methods c) (_method_name_index c)
              (λ _, true) (λ e, lower (name (method e))) (q !! u "name")
              None (λ _, true) Hn (λ _, eq_refl))
    as [[Hqn ->]|(Hqn & cand1 & -> & H1)].
  { unfold query_raises. by rewrite Hqn. }
  destruct (filter_by_index_cases (methods c) (_method_module_index c)
              (λ e, truthy (module e)) (λ e, lower (module e))
              (q !! u "module") cand1 _ Hm H1)
    as [[Hqm ->]|(Hqm & cand2 & -> & H2)].
  { unfold query_raises. rewrite Hqm.
    by destruct (q !! u "name") as [[t|b|z| |[pattern_search|]]|]. }
  assert (query_raises q = false) as ->.
  { unfold query_raises.
    destruct (q !! u "name") as [[t|b|z| |[pattern_search|]]|];
      destruct (q !! u "module") as [[t'|b'|z'| |[pattern_search'|]]|];
      done. }
  eexists. split; [done|].
  rewrite (oselects_collect c q _ _ (filter_by_export_selects c q _ _ Hx H2)).
  apply reflexive_eq, list_filter_iff. intros e. unfold query_matches.
  simpl. done.
Qed.

(** X9. A query whose [name] or [module] pattern does not compile makes
    [find_methods] raise, whatever the cache holds. *)
Theorem find_methods_bad_regex c q :
  query_raises q = true → find_methods c (Some q) = None.
Proof.
  unfold query_raises, find_methods, filter_by_index. intros Hr.
  destruct (decide (size q = 0)) as [Hz|Hz].
  { apply map_size_empty_inv in Hz as ->. by rewrite !lookup_empty in Hr. }
  destruct (q !! u "name") as [[t|b|z| |[pattern_search|]]|]; simpl;
    destruct (q !! u "module") as [[t'|b'|z'| |[pattern_search'|]]|];
    simpl; done.
Qed.

(** X8. A query that compiles returns exactly the entries that meet all of
    its criteria, each once. *)
Theorem find_methods_matches c q :
  consistent c → query_raises q = false →
  ∃ r, find_methods c (Some q) = Some r
       ∧ r ≡ₚ filter (λ e, query_matches q e = true) (methods c).
Proof.
  intros Hc Hr. pose proof (find_methods_char c q Hc) as Hs.
  by rewrite Hr in Hs.
Qed.

(** X10. [find_methods_by_module] returns the entries that have a module
    whose name equals the given one up to case. *)
Theorem find_methods_by_module_spec c (mod_ : str) :
  consistent c →
  ∃ r, find_methods_by_module c mod_ = Some r
       ∧ r ≡ₚ filter (λ e, has_module (lower mod_) e = true) (methods c).
Proof.
  intros Hc. unfold find_methods_by_module.
  pose proof (find_methods_char c {[ u "module" := QStr mod_ ]} Hc) as Hs.
  assert (query_raises {[ u "module" := QStr mod_ ]} = false) as Hr
    by by vm_compute.
  rewrite Hr in Hs. destruct Hs as (r & Hf & Hp).
  exists r. split; [done|]. rewrite Hp.
  apply reflexive_eq, list_filter_iff. intros e.
  unfold query_matches, export_matches, passes, has_module.
  rewrite lookup_singleton_eq.
  rewrite !lookup_singleton_ne by (by vm_compute).
  simpl. by rewrite !andb_true_r.
Qed.

(** X11. [find_exported_methods] returns the exported entries, restricted to
    the module of the given name (up to case) when one is given and is
    not empty. *)
Theorem find_exported_methods_spec c (mod_ : option str) :
  consistent c →
  ∃ r, find_exported_methods c mod_ = Some r
       ∧ r ≡ₚ filter (λ e, exported e
                           && match mod_ with
                              | Some m => if truthy m
                                          then has_module (lower m) e
                                          else true
                              | None => true
                              end = true) (methods c).
Proof.
  intros Hc. unfold find_exported_methods.
  set (q := match mod_ with
            | Some m => if truthy m
                        then <[ u "module" := QStr m ]>
                               ({[ u "is_export" := QBool true ]}
                                  : gmap str qval)
                        else {[ u "is_export" := QBool true ]}
            | None => {[ u "is_export" := QBool true ]}
            end).
  pose proof (find_methods_char c q Hc) as Hs.
  assert (q !! u "name" = None ∧ q !! u "context" = None
          ∧ q !! u "isproc" = None ∧ q !! u "isExport" = None
          ∧ q !! u "is_export" = Some (QBool true)
          ∧ q !! u "module"
            = match mod_ with
              | Some m => if truthy m then Some (QStr m) else None
              | None => None
              end) as (Hn & Hcx & Hip & HiE & Hie & Hm).
  { unfold q. destruct mod_ as [m|]; [destruct (truthy m)|];
      rewrite ?lookup_insert_eq, ?lookup_insert_ne by (by vm_compute);
      rewrite ?lookup_singleton_eq, ?lookup_singleton_ne by (by vm_compute);
      done. }
  assert (query_raises q = false) as Hr.
  { unfold query_raises. rewrite Hn, Hm.
    destruct mod_ as [m|]; [by destruct (truthy m)|done]. }
  rewrite Hr in Hs. destruct Hs as (r & Hf & Hp).
  exists r. split; [done|]. rewrite Hp.
  apply reflexive_eq, list_filter_iff. intros e.
  unfold query_matches, export_matches, passes, has_module, exported.
  rewrite Hn, Hcx, Hip, HiE, Hie, Hm. simpl.
  destruct mod_ as [m|]; [destruct (truthy m)|]; simpl.
  all: clear; rewrite ?andb_true_r.
  - rewrite andb_comm. reflexivity.
  - reflexivity.
  - reflexivity.
Qed.

End QueryFacts.

Section CacheProperties.
Context `{PyRuntime}.

Lemma filter_filter_comm {A} (P Q : A → Prop) `{!∀ x, Decision (P x)}
    `{!∀ x, Decision (Q x)} (l : list A) :
  filter P (filter Q l) = filter Q (filter P l).
Proof.
  rewrite !list_filter_filter. apply list_filter_iff. intros x. tauto.
Qed.

Lemma remove_calls_comm (cs : gmap str (list BSLCallInfo)) (f g : str) :
  remove_calls (remove_calls cs f) g = remove_calls (remove_calls cs g) f.
Proof.
  apply map_eq. intros k. rewrite !lookup_remove_calls.
  destruct (cs !! k) as [l|]; simpl; [|done].
  assert (∀ a b, nonempty (keep a l) ≫= (λ l', nonempty (keep b l'))
                 = nonempty (keep b (keep a l))) as Hb.
  { intros a b. by destruct (keep a l). }
  rewrite !Hb. unfold keep. by rewrite filter_filter_comm.
Qed.

(** Removing the data of two files gives the same cache in either
    order. *)
Lemma remove_file_data_swap c (f g : str) :
  remove_file_data (remove_file_data c f) g
  = remove_file_data (remove_file_data c g) f.
Proof.
  rewrite !remove_file_data_unfold. cbn.
  rewrite (filter_filter_comm (λ e, filename e ≠ g) (λ e, filename e ≠ f)).
  rewrite (filter_filter_comm (λ mo, mo_filename mo ≠ g)
                              (λ mo, mo_filename mo ≠ f)).
  by rewrite delete_delete, remove_calls_comm.
Qed.

Lemma length_positions_from {A} (P : A → bool) i (l : list A) :
  length (positions_from P i l) = length (filter (λ x, P x = true) l).
Proof.
  revert i. induction l as [|x l IH]; intros i; [done|].
  simpl. rewrite filter_cons. destruct (P x).
  - rewrite decide_True by done. simpl. by rewrite IH.
  - rewrite decide_False by done. apply IH.
Qed.

(** X13. In a cache whose indexes are exact, the [exported_methods] count
    of [get_stats] is the number of exported entries, and so at most
    the [methods] count. *)
Theorem get_stats_exported c :
  consistent c →
  st_exported_methods (get_stats c)
  = length (filter (λ e, exported e = true) (methods c))
  ∧ st_exported_methods (get_stats c) ≤ st_methods (get_stats c).
Proof.
  intros (_ & _ & Hx). simpl in *. rewrite Hx.
  unfold positions. rewrite length_positions_from.
  split; [done|]. apply length_filter.
Qed.

Lemma dict_append_insert {A} (k : str) (x : A) (d : gmap str (list A)) :
  dict_append k x d = <[k := default [] (d !! k) ++ [x]]> d.
Proof.
  apply map_eq. intros k'. rewrite lookup_dict_append.
  destruct (decide (k = k')) as [->|Hk].
  - by rewrite lookup_insert_eq.
  - by rewrite lookup_insert_ne.
Qed.

Lemma map_fold_length_dict_append {A} (k : str) (x : A)
    (d : gmap str (list A)) :
  map_fold (λ _ l acc, length l + acc) 0 (dict_append k x d)
  = S (map_fold (λ _ l acc, length l + acc) 0 d).
Proof.
  rewrite dict_append_insert.
  destruct (d !! k) as [l|] eqn:Hk; simpl.
  - rewrite <- insert_delete_eq.
    rewrite map_fold_insert_L; [|intros; lia|by rewrite lookup_delete_eq].
    rewrite (map_fold_delete_L _ _ k l d); [|intros; lia|done].
    rewrite length_app. simpl. lia.
  - rewrite map_fold_insert_L; [|intros; lia|done]. done.
Qed.

Lemma get_stats_add_methods_batch c l :
  st_methods (get_stats (add_methods_batch c l))
  = st_methods (get_stats c) + length l
  ∧ st_module_vars (get_stats (add_methods_batch c l))
    = st_module_vars (get_stats c)
  ∧ st_calls (get_stats (add_methods_batch c l)) = st_calls (get_stats c)
  ∧ st_modules (get_stats (add_methods_batch c l))
    = st_modules (get_stats c).
Proof.
  unfold add_methods_batch. revert c.
  induction l as [|[[m f] mo] l IH]; intros c; cbn [foldl].
  - simpl. split; [lia|done].
  - destruct (IH (add_method c m f mo)) as (-> & -> & -> & ->).
    destruct (add_method_methods c m f mo) as (Hm & Hv & Hc & Ho).
    unfold get_stats. cbn [st_methods st_module_vars st_calls st_modules].
    rewrite Hm, Hv, Hc, Ho, length_app. simpl.
    split; [lia|done].
Qed.

Lemma get_stats_add_module_vars_batch c l :
  st_methods (get_stats (add_module_vars_batch c l))
  = st_methods (get_stats c)
  ∧ st_module_vars (get_stats (add_module_vars_batch c l))
    = st_module_vars (get_stats c) + length l
  ∧ st_calls (get_stats (add_module_vars_batch c l))
    = st_calls (get_stats c)
  ∧ st_modules (get_stats (add_module_vars_batch c l))
    = st_modules (get_stats c).
Proof.
  unfold add_module_vars_batch. revert c.
  induction l as [|[v f] l IH]; intros c; cbn [foldl].
  - simpl. repeat split; lia.
  - destruct (IH (add_module_var c v f)) as (-> & -> & -> & ->).
    simpl. rewrite map_fold_length_dict_append.
    repeat split; lia.
Qed.

Lemma get_stats_add_calls_batch c l :
  st_methods (get_stats (add_calls_batch c l)) = st_methods (get_stats c)
  ∧ st_module_vars (get_stats (add_calls_batch c l))
    = st_module_vars (get_stats c)
  ∧ st_calls (get_stats (add_calls_batch c l))
    = st_calls (get_stats c) + length l
  ∧ st_modules (get_stats (add_calls_batch c l))
    = st_modules (get_stats c).
Proof.
  unfold add_calls_batch. revert c.
  induction l as [|[[[cp f] mn] mo] l IH]; intros c; cbn [foldl].
  - simpl. repeat split; lia.
  - destruct (IH (add_call c cp f mn mo)) as (-> & -> & -> & ->).
    simpl. rewrite map_fold_length_dict_append.
    repeat split; lia.
Qed.

(** X14. Indexing one parse result raises the [methods], [module_vars] and
    [calls] counts of [get_stats] by the number of methods, module
    variables and calls (module-level and per method) of the result. *)
Theorem get_stats_insert_parse_result c (f mo : str) pr :
  let s := get_stats c in
  let s' := get_stats (insert_parse_result c f mo pr) in
  st_methods s' = st_methods s + length (pr_methods pr)
  ∧ st_module_vars s' = st_module_vars s + length (pr_module_vars pr)
  ∧ st_calls s' = st_calls s + length (parsed_calls f mo pr)
  ∧ st_modules s' = st_modules s.
Proof.
  intros s s'. unfold s', s, insert_parse_result.
  set (c1 := if pr_methods pr is [] then c
             else add_methods_batch c ((λ m, (m, f, mo)) <$> pr_methods pr)).
  set (c2 := if pr_module_vars pr is [] then c1
             else add_module_vars_batch c1
                    ((λ kv, (kv.2, f)) <$> pr_module_vars pr)).
  set (c3 := if pr_global_calls pr is [] then c2
             else add_calls_batch c2
                    ((λ cp, (cp, f, u "GlobalModuleText", mo))
                       <$> pr_global_calls pr)).
  set (mc := concat ((λ m, (λ cp, (cp, f, name m, mo)) <$> calls_position m)
                       <$> pr_methods pr)).
  set (c4 := if mc is [] then c3 else add_calls_batch c3 mc).
  assert (c1 = add_methods_batch c ((λ m, (m, f, mo)) <$> pr_methods pr))
    as Hc1 by (unfold c1; by destruct (pr_methods pr)).
  assert (c2 = add_module_vars_batch c1
                 ((λ kv, (kv.2, f)) <$> pr_module_vars pr))
    as Hc2 by (unfold c2; by destruct (pr_module_vars pr)).
  assert (c3 = add_calls_batch c2
                 ((λ cp, (cp, f, u "GlobalModuleText", mo))
                    <$> pr_global_calls pr))
    as Hc3 by (unfold c3; by destruct (pr_global_calls pr)).
  assert (c4 = add_calls_batch c3 mc)
    as Hc4 by (unfold c4; by destruct mc).
  clearbody c1 c2 c3 c4.
  destruct (get_stats_add_calls_batch c3 mc) as (H41 & H42 & H43 & H44).
  destruct (get_stats_add_calls_batch c2
              ((λ cp, (cp, f, u "GlobalModuleText", mo))
                 <$> pr_global_calls pr)) as (H31 & H32 & H33 & H34).
  destruct (get_stats_add_module_vars_batch c1
              ((λ kv, (kv.2, f)) <$> pr_module_vars pr))
    as (H21 & H22 & H23 & H24).
  destruct (get_stats_add_methods_batch c
              ((λ m, (m, f, mo)) <$> pr_methods pr))
    as (H11 & H12 & H13 & H14).
  rewrite <- Hc4 in *. rewrite <- Hc3 in *. rewrite <- Hc2 in *.
  rewrite <- Hc1 in *.
  rewrite H41, H42, H43, H44, H31, H32, H33, H34, H21, H22, H23, H24,
    H11, H12, H13, H14.
  rewrite !length_fmap. unfold parsed_calls. rewrite length_app, length_fmap.
  fold mc. repeat split; lia.
Qed.

End CacheProperties.

Section CallsKeyed.
Context `{PyRuntime}.

Lemma add_call_calls_keyed c cp f mn mo :
  calls_keyed c → calls_keyed (add_call c cp f mn mo).
Proof.
  unfold calls_keyed, add_call. simpl. intros Hc k l ci.
  rewrite lookup_dict_append. case_decide as Hk; [|by apply Hc].
  intros [= <-] [Hin|Hin]%elem_of_app.
  - destruct (calls c !! cp_call cp) as [l0|] eqn:Hl; simpl in Hin.
    + subst k. by eapply Hc.
    + by apply elem_of_nil in Hin.
  - by apply list_elem_of_singleton in Hin as ->.
Qed.

Lemma add_calls_batch_calls_keyed c l :
  calls_keyed c → calls_keyed (add_calls_batch c l).
Proof.
  unfold add_calls_batch. revert c.
  induction l as [|[[[cp f] mn] mo] l IH]; intros c Hc; simpl; [done|].
  by apply IH, add_call_calls_keyed.
Qed.

Lemma remove_file_data_calls_keyed c fname :
  calls_keyed c → calls_keyed (remove_file_data c fname).
Proof.
  rewrite remove_file_data_unfold. unfold calls_keyed. simpl.
  intros Hc k l ci. rewrite lookup_remove_calls.
  destruct (calls c !! k) as [l0|] eqn:Hl; simpl; [|done].
  intros [-> _]%nonempty_Some [_ Hin]%elem_of_keep. by eapply Hc.
Qed.

Lemma apply_op_calls_keyed c o : calls_keyed c → calls_keyed (apply_op c o).
Proof.
  intros Hc.
  destruct o as [m f mo|v f|cp f mn mo|ml|vl|cl|mi|f|]; simpl.
  - unfold calls_keyed, add_method.
    by destruct (index_method _ _ _) as [[? ?] ?].
  - done.
  - by apply add_call_calls_keyed.
  - unfold calls_keyed.
    by destruct (add_methods_batch_calls c ml) as (-> & _).
  - unfold calls_keyed.
    by destruct (add_module_vars_batch_indexes c vl)
      as (_ & _ & _ & _ & -> & _).
  - by apply add_calls_batch_calls_keyed.
  - done.
  - by apply remove_file_data_calls_keyed.
  - intros k l ci. unfold clear. simpl. by rewrite lookup_empty.
Qed.

(** X12. Whatever operations built the cache, the records [find_calls]
    returns for a name are calls of that name. *)
Theorem find_calls_after_ops (ops : list op) (call_name : str) ci :
  ci ∈ find_calls (run ops BSLCache_init) call_name →
  ci_call ci = call_name.
Proof.
  assert (∀ c, calls_keyed c → calls_keyed (run ops c)) as Hrun.
  { unfold run. induction ops as [|o l IH]; intros c Hc; [done|].
    simpl. by apply IH, apply_op_calls_keyed. }
  unfold find_calls.
  destruct (calls (run ops BSLCache_init) !! call_name) as [l|] eqn:Hl;
    simpl; [|by intros ?%elem_of_nil].
  intros Hin. eapply (Hrun BSLCache_init); [|done..].
  intros k l' ci'. simpl. by rewrite lookup_empty.
Qed.

End CallsKeyed.

(** * Further properties of the indexer *)

Section IndexerProperties.
Context `{PyRuntime}.

Lemma _parse_file_local_root fs sv f :
  repository_root_path (_parse_file_local fs sv f) = repository_root_path sv.
Proof.
  rewrite _parse_file_local_spec.
  destruct (fresh_parse _ _ _) as [[source pr]|]; [|done].
  by case_bool_decide.
Qed.

Lemma _parse_file_local_other fs sv f g :
  g ≠ f →
  _document_symbols_cache (_parse_file_local fs sv f) !! g
  = _document_symbols_cache sv !! g.
Proof.
  intros Hg. rewrite _parse_file_local_spec.
  destruct (fresh_parse _ _ _) as [[source pr]|]; [|done].
  case_bool_decide; [done|]. cbn. by rewrite lookup_insert_ne.
Qed.

Lemma _parse_file_local_up_to_date fs sv f :
  up_to_date fs (_parse_file_local fs sv f) f.
Proof.
  unfold up_to_date. rewrite _parse_file_local_root.
  rewrite _parse_file_local_spec.
  destruct (fresh_parse _ _ _) as [[source pr]|] eqn:Hf; [|done].
  case_bool_decide; [done|]. cbn. by rewrite lookup_insert_eq.
Qed.

Lemma _parse_file_local_keeps_up_to_date fs sv f g :
  up_to_date fs sv g → up_to_date fs (_parse_file_local fs sv f) g.
Proof.
  destruct (decide (g = f)) as [->|Hg].
  - intros _. apply _parse_file_local_up_to_date.
  - unfold up_to_date.
    by rewrite _parse_file_local_root, _parse_file_local_other.
Qed.

Lemma _parse_file_local_noop fs sv f :
  up_to_date fs sv f → _parse_file_local fs sv f = sv.
Proof.
  unfold up_to_date. rewrite _parse_file_local_spec.
  destruct (fresh_parse _ _ _) as [[source pr]|]; [|done].
  intros Hu. by rewrite bool_decide_eq_true_2.
Qed.

Lemma index_keeps_up_to_date fs sv l g :
  up_to_date fs sv g →
  up_to_date fs (_index_files_with_local_parser fs sv l) g.
Proof.
  unfold _index_files_with_local_parser. revert sv.
  induction l as [|f l IH]; intros sv Hu; simpl; [done|].
  by apply IH, _parse_file_local_keeps_up_to_date.
Qed.

Lemma index_up_to_date fs sv l g :
  g ∈ l → up_to_date fs (_index_files_with_local_parser fs sv l) g.
Proof.
  unfold _index_files_with_local_parser. revert sv.
  induction l as [|f l IH]; intros sv Hg; simpl.
  - by apply elem_of_nil in Hg.
  - apply elem_of_cons in Hg as [->|Hg]; [|by apply IH].
    apply (index_keeps_up_to_date fs _ l), _parse_file_local_up_to_date.
Qed.

Lemma index_noop fs sv l :
  (∀ g, g ∈ l → up_to_date fs sv g) →
  _index_files_with_local_parser fs sv l = sv.
Proof.
  unfold _index_files_with_local_parser.
  induction l as [|f l IH]; intros Hu; simpl; [done|].
  rewrite _parse_file_local_noop by (apply Hu; by left).
  apply IH. intros g Hg. apply Hu. by right.
Qed.

(** X17. Indexing the same files again, with the files unchanged, changes
    nothing. *)
Theorem _index_files_with_local_parser_idempotent fs sv
    (file_paths : list str) :
  _index_files_with_local_parser fs
    (_index_files_with_local_parser fs sv file_paths) file_paths
  = _index_files_with_local_parser fs sv file_paths.
Proof. apply index_noop. intros g Hg. by apply index_up_to_date. Qed.

Lemma _find_files_to_index_filter fs en sv (all_files : list str) :
  _find_files_to_index fs en sv all_files
  = filter (λ file_path,
              (truthy (_compute_file_hash fs sv file_path)
               && (en && _is_file_cached sv file_path
                           (_compute_file_hash fs sv file_path))) = false)
           all_files.
Proof.
  unfold _find_files_to_index.
  assert (∀ acc,
    foldl (λ files_to_index file_path,
             let file_hash := _compute_file_hash fs sv file_path in
             if negb (truthy file_hash) then files_to_index ++ [file_path]
             else if en && _is_file_cached sv file_path file_hash
                  then files_to_index
                  else files_to_index ++ [file_path]) acc all_files
    = acc ++ filter (λ file_path,
              (truthy (_compute_file_hash fs sv file_path)
               && (en && _is_file_cached sv file_path
                           (_compute_file_hash fs sv file_path))) = false)
           all_files) as Hgen.
  { induction all_files as [|f l IH]; intros acc; cbn [foldl].
    - by rewrite filter_nil, app_nil_r.
    - rewrite IH, filter_cons. cbn zeta.
      destruct (truthy (_compute_file_hash fs sv f)); cbn [negb andb].
      + destruct (en && _is_file_cached sv f _).
        * by rewrite decide_False by done.
        * rewrite decide_True by done. by rewrite <- app_assoc.
      + rewrite decide_True by done. by rewrite <- app_assoc. }
  apply (Hgen []).
Qed.

(** X18. A file that [_find_files_to_index] leaves out is one that
    [_parse_file_local] would not touch: skipping it loses nothing. *)
Theorem _find_files_to_index_sound fs en sv (all_files : list str)
    (file_path : str) :
  file_path ∈ all_files →
  file_path ∉ _find_files_to_index fs en sv all_files →
  _parse_file_local fs sv file_path = sv.
Proof.
  rewrite _find_files_to_index_filter, list_elem_of_filter.
  intros Hin Hout.
  assert (truthy (_compute_file_hash fs sv file_path)
          && (en && _is_file_cached sv file_path
                      (_compute_file_hash fs sv file_path)) = true) as Hs.
  { destruct (_ && _); [done|]. by destruct Hout. }
  apply andb_true_iff in Hs as [Hh [_ Hc]%andb_true_iff].
  unfold _compute_file_hash in *. unfold _parse_file_local.
  destruct (fs _) as [content|]; [|done]. cbn zeta.
  unfold _is_file_cached in Hc.
  destruct (_document_symbols_cache sv !! file_path) as [[h syms]|];
    [|done].
  apply bool_decide_eq_true in Hc as ->. simpl.
  by rewrite bool_decide_eq_true_2.
Qed.

(** X19. After a bulk index, hash prefiltering skips every file of the list
    that was parsed: only files that cannot be read, are blank or have
    an empty digest are listed again. *)
Theorem _find_files_to_index_after_indexing fs sv (file_paths : list str)
    (file_path source : str) pr :
  let sv' := _index_files_with_local_parser fs sv file_paths in
  file_path ∈ file_paths →
  fresh_parse fs (repository_root_path sv) file_path = Some (source, pr) →
  md5 source ≠ [] →
  file_path ∉ _find_files_to_index fs true sv' file_paths.
Proof.
  intros sv' Hin Hf Hmd.
  pose proof (index_up_to_date fs sv file_paths file_path Hin) as Hu.
  fold sv' in Hu. unfold up_to_date in Hu.
  assert (repository_root_path sv' = repository_root_path sv) as Hroot.
  { unfold sv', _index_files_with_local_parser. clear. revert sv.
    induction file_paths as [|f l IH]; intros sv; simpl; [done|].
    by rewrite IH, _parse_file_local_root. }
  rewrite Hroot, Hf in Hu.
  rewrite _find_files_to_index_filter, list_elem_of_filter.
  intros [Hs _]. unfold _compute_file_hash, _is_file_cached in Hs.
  rewrite Hroot in Hs. unfold fresh_parse in Hf.
  destruct (fs _) as [content|]; [|done].
  destruct (truthy (strip _)); [|done]. injection Hf as <- <-.
  destruct (_document_symbols_cache sv' !! file_path) as [[h syms]|];
    [|done].
  simpl in Hu. injection Hu as ->.
  rewrite bool_decide_eq_true_2 in Hs by done.
  by destruct (md5 (normalize_newlines content)).
Qed.

End IndexerProperties.

Section RemoveDeleted.
Context `{PyRuntime}.

Lemma foldl_comm_perm {A B} (f : A → B → A) (l l' : list B) :
  (∀ a x y, f (f a x) y = f (f a y) x) →
  l ≡ₚ l' → ∀ a, foldl f a l = foldl f a l'.
Proof.
  intros Hf Hp. induction Hp as [|x l l' _ IH|x y l|l l' l'' _ IH1 _ IH2];
    intros a; simpl.
  - done.
  - apply IH.
  - by rewrite Hf.
  - by rewrite IH1.
Qed.

(** X15. Removing the data of several files gives the same cache whatever
    the order of the files. *)
Theorem remove_file_data_order c (l l' : list str) :
  l ≡ₚ l' → foldl remove_file_data c l = foldl remove_file_data c l'.
Proof.
  intros Hp. apply foldl_comm_perm; [|done].
  intros a x y. apply remove_file_data_swap.
Qed.

Lemma remove_deleted_step_comm (E : gset str) acc (x y : str) :
  remove_deleted_step E (remove_deleted_step E acc x) y
  = remove_deleted_step E (remove_deleted_step E acc y) x.
Proof.
  destruct acc as [sv n]. unfold remove_deleted_step.
  case_bool_decide; case_bool_decide; try done.
  f_equal. cbn.
  rewrite remove_file_data_swap.
  rewrite (delete_delete (_document_symbols_cache sv)).
  rewrite (delete_delete (_raw_document_symbols_cache sv)).
  rewrite (delete_delete (_file_content_cache sv)).
  f_equal. apply set_eq. intros z. rewrite !elem_of_difference. tauto.
Qed.

(** X21. The result of [_remove_deleted_files_from_cache] does not depend
    on the order in which the keys of the projection cache are
    visited. *)
Theorem _remove_deleted_files_from_cache_order sv
    (existing_files cache_keys : list str) :
  cache_keys ≡ₚ (map_to_list (_document_symbols_cache sv)).*1 →
  remove_deleted_loop sv existing_files cache_keys
  = _remove_deleted_files_from_cache sv existing_files.
Proof.
  intros Hp. unfold _remove_deleted_files_from_cache, remove_deleted_loop.
  apply foldl_comm_perm; [|done].
  intros a x y. apply remove_deleted_step_comm.
Qed.

Lemma methods_foldl_remove c (l : list str) :
  methods (foldl remove_file_data c l)
  = filter (λ e, filename e ∉ l) (methods c).
Proof.
  revert c. induction l as [|f l IH]; intros c; simpl.
  - symmetry. apply filter_id, Forall_forall. intros e _.
    apply not_elem_of_nil.
  - rewrite IH. destruct (remove_file_data_fields c f) as (-> & _).
    rewrite list_filter_filter. apply list_filter_iff. intros e.
    rewrite not_elem_of_cons. tauto.
Qed.

Lemma remove_deleted_loop_spec (E : gset str) (keys : list str) sv n :
  let removed := filter (λ k, k ∉ E) keys in
  let r := foldl (remove_deleted_step E) (sv, n) keys in
  repository_root_path r.1 = repository_root_path sv
  ∧ _local_cache r.1 = foldl remove_file_data (_local_cache sv) removed
  ∧ _document_symbols_cache r.1
    = foldl (λ m k, delete k m) (_document_symbols_cache sv) removed
  ∧ _raw_document_symbols_cache r.1
    = foldl (λ m k, delete k m) (_raw_document_symbols_cache sv) removed
  ∧ _file_content_cache r.1
    = foldl (λ m k, delete k m) (_file_content_cache sv) removed
  ∧ _converted_files r.1 = _converted_files sv ∖ list_to_set removed
  ∧ r.2 = n + length removed.
Proof.
  revert sv n. induction keys as [|k keys IH]; intros sv n; cbn zeta.
  - simpl. rewrite difference_empty_L. repeat split; lia.
  - cbn [foldl]. rewrite filter_cons.
    unfold remove_deleted_step at 2 4 6 8 10 12 14.
    case_bool_decide as Hk.
    + rewrite decide_False by tauto. apply IH.
    + rewrite decide_True by done.
      specialize (IH
        {| repository_root_path := repository_root_path sv;
           _local_cache := remove_file_data (_local_cache sv) k;
           _document_symbols_cache := delete k (_document_symbols_cache sv);
           _raw_document_symbols_cache :=
             delete k (_raw_document_symbols_cache sv);
           _file_content_cache := delete k (_file_content_cache sv);
           _converted_files := _converted_files sv ∖ {[k]} |} (S n)).
      cbn zeta in IH. destruct IH as (-> & -> & -> & -> & -> & -> & ->).
      cbn. rewrite difference_difference_l_L. repeat split; lia.
Qed.

Lemma lookup_foldl_delete {A} (m : gmap str A) (l : list str) k :
  foldl (λ m k, delete k m) m l !! k
  = if decide (k ∈ l) then None else m !! k.
Proof.
  revert m. induction l as [|x l IH]; intros m; cbn [foldl].
  - by rewrite decide_False by apply not_elem_of_nil.
  - rewrite IH. destruct (decide (k = x)) as [->|Hne].
    + rewrite lookup_delete_eq.
      rewrite (decide_True (P := x ∈ x :: l)) by by left.
      by case_decide.
    + rewrite lookup_delete_ne by done.
      destruct (decide (k ∈ l)) as [Hl|Hl].
      * by rewrite decide_True by by right.
      * rewrite decide_False; [done|]. rewrite not_elem_of_cons. tauto.
Qed.

Lemma elem_of_keys {A} (m : gmap str A) (k : str) :
  k ∈ (map_to_list m).*1 ↔ is_Some (m !! k).
Proof.
  rewrite list_elem_of_fmap. split.
  - intros ([k' v] & -> & Hkv). apply elem_of_map_to_list in Hkv. by exists v.
  - intros [v Hv]. exists (k, v). split; [done|].
    by apply elem_of_map_to_list.
Qed.

Lemma size_foldl_delete {A} (m : gmap str A) (l : list str) :
  NoDup l → (∀ k, k ∈ l → is_Some (m !! k)) →
  length l + size (foldl (λ m k, delete k m) m l) = size m.
Proof.
  intros Hnd. revert m. induction Hnd as [|x l Hx Hnd IH]; intros m Hl.
  - done.
  - simpl. destruct (Hl x) as [v Hv]; [by left|].
    assert (size m ≠ 0) as Hne.
    { intros ->%map_size_empty_inv. by rewrite lookup_empty in Hv. }
    specialize (IH (delete x m)).
    rewrite map_size_delete, Hv in IH. simpl in IH.
    rewrite IH; [lia|].
    intros k Hk. rewrite lookup_delete_ne by (intros ->; done).
    apply Hl. by right.
Qed.

(** X20. [_remove_deleted_files_from_cache] drops from the projection cache
    the keys that are not existing files and keeps the others as they
    are, returns the number of dropped keys, and removes from the symbol
    cache the methods of the dropped files, and of those only: a
    method whose file has no key in the projection cache stays, existing
    or not. *)
Theorem _remove_deleted_files_from_cache_spec sv (existing_files : list str) :
  let r := _remove_deleted_files_from_cache sv existing_files in
  (∀ k, _document_symbols_cache r.1 !! k
        = if decide (k ∈ existing_files)
          then _document_symbols_cache sv !! k else None)
  ∧ r.2 + size (_document_symbols_cache r.1)
    = size (_document_symbols_cache sv)
  ∧ methods (_local_cache r.1)
    = filter (λ e, filename e ∈ existing_files
                   ∨ _document_symbols_cache sv !! filename e = None)
             (methods (_local_cache sv)).
Proof.
  intros r. unfold r, _remove_deleted_files_from_cache, remove_deleted_loop.
  set (keys := (map_to_list (_document_symbols_cache sv)).*1).
  destruct (remove_deleted_loop_spec (list_to_set existing_files) keys sv 0)
    as (_ & Hc & Hd & _ & _ & _ & Hn).
  set (removed := filter (λ k, k ∉ (list_to_set existing_files : gset str))
                         keys) in *.
  assert (∀ k, k ∈ removed
               ↔ is_Some (_document_symbols_cache sv !! k)
                 ∧ k ∉ existing_files) as Hrem.
  { intros k. unfold removed, keys.
    rewrite list_elem_of_filter, elem_of_keys, elem_of_list_to_set. tauto. }
  rewrite Hc, Hd, Hn. split; [|split].
  - intros k. rewrite lookup_foldl_delete.
    destruct (decide (k ∈ existing_files)) as [Hk|Hk].
    + rewrite decide_False; [done|]. rewrite Hrem. tauto.
    + case_decide as Hr; [done|]. rewrite Hrem in Hr.
      destruct (_document_symbols_cache sv !! k) eqn:Hl; [|done].
      destruct Hr. split; [by eexists|done].
  - simpl. apply size_foldl_delete.
    + apply NoDup_filter, NoDup_fst_map_to_list.
    + intros k Hk. by apply Hrem in Hk as [? _].
  - rewrite methods_foldl_remove. apply list_filter_iff. intros e.
    rewrite Hrem. rewrite <- not_eq_None_Some.
    destruct (decide (filename e ∈ existing_files)); [tauto|].
    destruct (_document_symbols_cache sv !! filename e); [|tauto].
    split; [intros Hn'; destruct Hn'; by split|by intros [?|?]].
Qed.

End RemoveDeleted.

(** ** Instances of the further properties *)

Lemma method_calls_located_witness :
  in_range Sample.method_b (cp_line Sample.call_v).
Proof.
  refine (proj1 (method_calls_located Sample.calls_text Sample.method_b
                   Sample.call_v _ _)).
  - apply (list_elem_of_lookup_2 _ 0). by vm_compute.
  - by left.
Defined.

Lemma global_calls_located_witness :
  is_keyword (cp_call Sample.call_g) = false.
Proof.
  refine (proj1 (proj2 (global_calls_located Sample.calls_text
                          Sample.call_g _))).
  apply (list_elem_of_lookup_2 _ 0). by vm_compute.
Defined.

Lemma parse_methods_sorted_witness :
  line Sample.method_b ≤ line Sample.method_d.
Proof.
  apply (parse_methods_sorted Sample.calls_text 0 1).
  - lia.
  - by vm_compute.
  - by vm_compute.
Defined.

Lemma parse_module_vars_keys_witness :
  (u "X", {| v_name := u "X"; v_is_export := true; v_description := [] |})
  ∈ pr_module_vars (parse Sample.redeclared_var).
Proof.
  apply (proj2 (proj2 (parse_module_vars_keys Sample.redeclared_var))).
  by vm_compute.
Defined.

Lemma _find_method_end_first_closing_witness :
  _find_method_end Sample.calls_text 2 true = Some 4.
Proof.
  apply (_find_method_end_first_closing Sample.calls_text 2 true 4
           (u "КонецПроцедуры")).
  - lia.
  - by vm_compute.
  - by vm_compute.
  - intros j l Hj Hl. assert (j = 3) as -> by lia.
    vm_compute in Hl. injection Hl as <-. by vm_compute.
Defined.

Lemma symbol_of_parsed_method_witness :
  sy_start_line
    (symbol_of_method Sample.a_bsl (u "/r/a.bsl") Sample.calls_text
       Sample.method_b)
  = line Sample.method_b.
Proof.
  refine (proj1 (symbol_of_parsed_method Sample.calls_text Sample.a_bsl
                   (u "/r/a.bsl") Sample.method_b _)).
  apply (list_elem_of_lookup_2 _ 0). by vm_compute.
Defined.

Lemma parsed_context_values_witness :
  context Sample.method_d = []
  ∨ context Sample.method_d = u "НаСервере"
  ∨ context Sample.method_d = u "НаКлиенте".
Proof.
  apply (parsed_context_values Sample.calls_text Sample.method_d).
  - intros t. cbn. rewrite length_fmap. lia.
  - apply (list_elem_of_lookup_2 _ 1). by vm_compute.
Defined.

Lemma find_methods_bad_regex_witness :
  find_methods Sample.one_method (Some Sample.bad_regex_query) = None.
Proof. apply find_methods_bad_regex. by vm_compute. Defined.

Lemma find_methods_matches_witness :
  ∃ r, find_methods Sample.one_method (Some Sample.name_query) = Some r
       ∧ r ≡ₚ filter (λ e, query_matches Sample.name_query e = true)
                     (methods Sample.one_method).
Proof.
  apply find_methods_matches.
  - apply add_method_consistent. by repeat split.
  - by vm_compute.
Defined.

Lemma find_methods_by_module_spec_witness :
  ∃ r, find_methods_by_module Sample.one_method (u "м") = Some r
       ∧ r ≡ₚ filter (λ e, has_module (lower (u "м")) e = true)
                     (methods Sample.one_method).
Proof.
  apply find_methods_by_module_spec.
  apply add_method_consistent. by repeat split.
Defined.

Lemma find_exported_methods_spec_witness :
  ∃ r, find_exported_methods Sample.one_method None = Some r
       ∧ r ≡ₚ filter (λ e, exported e && true = true)
                     (methods Sample.one_method).
Proof.
  apply (find_exported_methods_spec Sample.one_method None).
  apply add_method_consistent. by repeat split.
Defined.

Lemma get_stats_exported_witness :
  st_exported_methods (get_stats Sample.one_method)
  ≤ st_methods (get_stats Sample.one_method).
Proof.
  refine (proj2 (get_stats_exported Sample.one_method _)).
  apply add_method_consistent. by repeat split.
Defined.

Lemma remove_file_data_order_witness :
  foldl remove_file_data Sample.one_method [Sample.a_bsl; u "b.bsl"]
  = foldl remove_file_data Sample.one_method [u "b.bsl"; Sample.a_bsl].
Proof. apply remove_file_data_order. apply perm_swap. Defined.

Lemma find_calls_after_ops_witness :
  ci_call (call_info_of (Sample.call_v, Sample.a_bsl, u "Б", u "М"))
  = u "В".
Proof.
  apply (find_calls_after_ops
           [AddCall Sample.call_v Sample.a_bsl (u "Б") (u "М")]).
  apply (list_elem_of_lookup_2 _ 0). by vm_compute.
Defined.

Lemma _find_files_to_index_sound_witness :
  _parse_file_local (Sample.fs_with Sample.old_text) Sample.indexed_once
                    Sample.a_bsl
  = Sample.indexed_once.
Proof.
  apply (_find_files_to_index_sound (Sample.fs_with Sample.old_text) true
           Sample.indexed_once [Sample.a_bsl]).
  - by left.
  - assert (_find_files_to_index (Sample.fs_with Sample.old_text) true
              Sample.indexed_once [Sample.a_bsl] = []) as -> by by vm_compute.
    apply not_elem_of_nil.
Defined.

Lemma _find_files_to_index_after_indexing_witness :
  Sample.a_bsl
  ∉ _find_files_to_index (Sample.fs_with Sample.old_text) true
      (_index_files_with_local_parser (Sample.fs_with Sample.old_text)
         (Server_init Sample.root) [Sample.a_bsl])
      [Sample.a_bsl].
Proof.
  apply (_find_files_to_index_after_indexing
           (Sample.fs_with Sample.old_text) (Server_init Sample.root)
           [Sample.a_bsl] Sample.a_bsl Sample.old_text
           (parse Sample.old_text)).
  - by left.
  - by vm_compute.
  - intros Hn. vm_compute in Hn. discriminate Hn.
Defined.

Lemma _remove_deleted_files_from_cache_order_witness :
  remove_deleted_loop Sample.indexed_two [] [Sample.a_bsl; Sample.b_bsl]
  = _remove_deleted_files_from_cache Sample.indexed_two [].
Proof.
  apply _remove_deleted_files_from_cache_order.
  assert ((map_to_list (_document_symbols_cache Sample.indexed_two)).*1
          = [Sample.b_bsl; Sample.a_bsl]) as -> by by vm_compute.
  apply perm_swap.
Defined.
